(** * Lix change control: change graph, snapshot store, CSV plugin, versions

    A shallow embedding of the parts of the lix SDK that the specification
    talks about.  SQL tables are lists of rows, a recursive common table
    expression is the queue algorithm SQLite runs for it, JavaScript arrays
    are lists whose holes are [None], and thrown errors are the left
    summand of a sum type. *)

From Stdlib Require Import List String Ascii Bool Arith NArith ZArith Lia.
From Stdlib Require Import Relations Permutation DecimalString DecimalNat OrdersEx.
Import ListNotations.

Local Open Scope string_scope.
Local Open Scope nat_scope.
Local Open Scope list_scope.

(** ** Facts about lists used throughout *)
Module ListFacts.

Lemma list_max_ge (f : string -> nat) l x : In x l -> f x <= list_max (map f l).
Proof.
  induction l as [|a l IH]; simpl; [intros [] |].
  intros [->|H]; [lia | specialize (IH H); lia].
Qed.

Lemma existsb_eqb_In c l : existsb (String.eqb c) l = true <-> In c l.
Proof.
  rewrite existsb_exists. split.
  - intros (x & Hx & Heq). apply String.eqb_eq in Heq. now subst.
  - intros H. exists c. split; [assumption | apply String.eqb_refl].
Qed.

Lemma last_indep {A} (l : list A) : forall x d d', last (x :: l) d = last (x :: l) d'.
Proof.
  induction l as [|y l IH]; intros x d d'; [reflexivity |].
  change (last (x :: y :: l) d) with (last (y :: l) d).
  change (last (x :: y :: l) d') with (last (y :: l) d'). apply IH.
Qed.

Lemma last_app_cons {A} (pre : list A) c suf d :
  last (pre ++ c :: suf) d = last (c :: suf) d.
Proof.
  induction pre as [|a pre IH]; [reflexivity |].
  destruct pre as [|b pre]; exact IH.
Qed.

Lemma last_map {A B} (f : A -> B) (l : list A) : forall c d,
  last (map f (c :: l)) (f d) = f (last (c :: l) d).
Proof.
  induction l as [|x l IH]; intros c d; [reflexivity |].
  change (last (map f (c :: x :: l)) (f d)) with (last (map f (x :: l)) (f d)).
  change (last (c :: x :: l) d) with (last (x :: l) d). apply IH.
Qed.

Lemma last_in {A} (l : list A) : forall c d, In (last (c :: l) d) (c :: l).
Proof.
  induction l as [|x l IH]; intros c d; [now left |].
  right. change (last (c :: x :: l) d) with (last (x :: l) d). apply IH.
Qed.

Lemma filter_cons_eq {A} (f : A -> bool) x l :
  filter f (x :: l) = if f x then x :: filter f l else filter f l.
Proof. reflexivity. Qed.

Lemma existsb_filter_nil {A} (f : A -> bool) l : filter f l = [] -> existsb f l = false.
Proof.
  induction l as [|a l IH]; [reflexivity |]. simpl.
  destruct (f a); [discriminate | exact IH].
Qed.

Lemma find_app_last {A} (f : A -> bool) l x :
  find f l = None -> f x = true -> find f (l ++ [x]) = Some x.
Proof.
  induction l as [|a l IH]; simpl; intros Hl Hx.
  - now rewrite Hx.
  - destruct (f a); [discriminate | now apply IH].
Qed.

Lemma existsb_filter {A} (p q : A -> bool) l :
  existsb p (filter q l) = existsb (fun x => q x && p x) l.
Proof.
  induction l as [|a l IH]; simpl; [reflexivity |].
  destruct (q a); simpl; now rewrite IH.
Qed.

Lemma existsb_ext_in {A} (p q : A -> bool) l :
  (forall x, In x l -> p x = q x) -> existsb p l = existsb q l.
Proof.
  induction l as [|a l IH]; intros H; simpl; [reflexivity |].
  rewrite (H a) by now left. f_equal. apply IH. intros x Hx. apply H. now right.
Qed.

Lemma existsb_and_const {A} (p : A -> bool) (b : bool) l :
  existsb (fun x => p x && b) l = existsb p l && b.
Proof.
  induction l as [|a l IH]; simpl; [reflexivity |].
  rewrite IH. destruct (p a), b, (existsb p l); reflexivity.
Qed.

Lemma filter_ext_in' {A} (p q : A -> bool) l :
  (forall x, In x l -> p x = q x) -> filter p l = filter q l.
Proof.
  induction l as [|a l IH]; intros H; simpl; [reflexivity |].
  rewrite (H a) by now left. rewrite IH; [reflexivity |].
  intros x Hx. apply H. now right.
Qed.

Lemma filter_andb {A} (p q : A -> bool) l :
  filter (fun x => p x && q x) l = filter q (filter p l).
Proof.
  induction l as [|a l IH]; simpl; [reflexivity |].
  destruct (p a); simpl; [destruct (q a) |]; now rewrite IH.
Qed.

Lemma existsb_none {A} (p : A -> bool) l :
  (forall x, In x l -> p x = false) -> existsb p l = false.
Proof.
  induction l as [|a l IH]; intros H; simpl; [reflexivity |].
  rewrite (H a) by now left. apply IH. intros x Hx. apply H. now right.
Qed.

Lemma existsb_map' {A B} (p : B -> bool) (g : A -> B) l :
  existsb p (map g l) = existsb (fun x => p (g x)) l.
Proof. induction l as [|a l IH]; simpl; [reflexivity | now rewrite IH]. Qed.


Lemma find_filter_negb {A} (p : A -> bool) l :
  find p (filter (fun x => negb (p x)) l) = None.
Proof.
  induction l as [|a l IH]; simpl; [reflexivity |].
  destruct (p a) eqn:E; simpl; [exact IH | now rewrite E].
Qed.


End ListFacts.

Import ListFacts.

(** ** Recursive common table expressions

    [WITH RECURSIVE t(id) AS (initial UNION ALL recursive) SELECT id FROM t]
    is evaluated by SQLite with a queue: the rows of the initial select are
    put in the queue; while the queue is not empty one row is taken out,
    added to the result, and the recursive select is run with that single
    row standing for [t], its rows going to the back of the queue.
    [UNION ALL] keeps duplicates, so nothing is ever dropped and the loop
    ends only when the graph that [step] walks has no cycle: hence the
    fuel. *)
Module Cte.

Section WithRecursive.

Variable step : string -> list string.

Fixpoint with_recursive (fuel : nat) (queue : list string) : option (list string) :=
  match queue with
  | [] => Some []
  | row :: rest =>
      match fuel with
      | 0 => None
      | S fuel' => option_map (cons row) (with_recursive fuel' (rest ++ step row))
      end
  end.

(** One row of the recursive select. *)
Definition edge (x y : string) : Prop := In y (step x).

(** The rows a single start row contributes when every row reachable from
    it has rank at most [n]: the number of paths that leave it. *)
Fixpoint rows (n : nat) (x : string) : nat :=
  match n with
  | 0 => 1
  | S n' => 1 + list_sum (map (rows n') (step x))
  end.

Lemma with_recursive_nil fuel : with_recursive fuel [] = Some [].
Proof. now destruct fuel. Qed.

Lemma with_recursive_single fuel row :
  with_recursive (S fuel) [row] = option_map (cons row) (with_recursive fuel (step row)).
Proof. reflexivity. Qed.

Lemma with_recursive_more_fuel fuel : forall queue extra out,
  with_recursive fuel queue = Some out ->
  with_recursive (fuel + extra) queue = Some out.
Proof.
  induction fuel as [|k IH]; intros [|row rest] extra out H;
    rewrite ?with_recursive_nil in *; try assumption; try discriminate.
  simpl in *.
  destruct (with_recursive k (rest ++ step row)) as [l|] eqn:E; try discriminate.
  rewrite (IH _ extra _ E). exact H.
Qed.

Lemma with_recursive_sound fuel : forall queue out c,
  with_recursive fuel queue = Some out ->
  In c out -> exists x, In x queue /\ clos_refl_trans_1n _ edge x c.
Proof.
  induction fuel as [|k IH]; intros [|row rest] out c H Hin; simpl in H.
  - injection H as <-. destruct Hin.
  - discriminate.
  - injection H as <-. destruct Hin.
  - destruct (with_recursive k (rest ++ step row)) as [l|] eqn:E; try discriminate.
    injection H as <-. destruct Hin as [<-|Hin].
    + exists row. split; [now left | constructor].
    + destruct (IH _ _ _ E Hin) as (x & Hx & Hreach).
      apply in_app_or in Hx. destruct Hx as [Hx|Hx].
      * exists x. split; [now right | assumption].
      * exists row. split; [now left |]. econstructor; [exact Hx | exact Hreach].
Qed.

Lemma with_recursive_complete fuel : forall queue out x c,
  with_recursive fuel queue = Some out ->
  In x queue -> clos_refl_trans_1n _ edge x c -> In c out.
Proof.
  induction fuel as [|k IH]; intros [|row rest] out x c H Hx Hreach; simpl in H;
    try solve [destruct Hx]; try discriminate.
  destruct (with_recursive k (rest ++ step row)) as [l|] eqn:E; try discriminate.
  injection H as <-. destruct Hx as [->|Hx].
  - destruct Hreach as [|y z Hxy Hyz]; [now left |].
    right. apply (IH _ _ y z E); [apply in_or_app; now right | assumption].
  - right. apply (IH _ _ x c E); [apply in_or_app; now left | assumption].
Qed.

(** A queue that holds a row of a set closed under "has a next row in the
    set" is never exhausted. *)
Lemma with_recursive_diverges (Q : string -> Prop) :
  (forall x, Q x -> exists y, In y (step x) /\ Q y) ->
  forall fuel queue, (exists x, In x queue /\ Q x) -> with_recursive fuel queue = None.
Proof.
  intros Hclosed. induction fuel as [|k IH]; intros [|row rest] (x & Hx & HQ);
    try solve [destruct Hx]; [reflexivity |].
  cbn [with_recursive]. rewrite IH; [reflexivity |].
  destruct Hx as [->|Hx].
  - destruct (Hclosed x HQ) as (y & Hy & HQy).
    exists y. split; [apply in_or_app; now right | assumption].
  - exists x. split; [apply in_or_app; now left | assumption].
Qed.

(** The number of paths from [x] to [c], when every row reachable from [x]
    has rank at most [n]. *)
Definition here (c x : string) : nat := if (x =? c)%string then 1 else 0.

Fixpoint paths (n : nat) (c x : string) : nat :=
  match n with
  | 0 => here c x
  | S n' => here c x + list_sum (map (paths n' c) (step x))
  end.

Section Ranked.

(** The graph has no cycle: every step goes to a row of smaller rank. *)
Variable rank : string -> nat.
Hypothesis step_decreases : forall x y, In y (step x) -> rank y < rank x.

Lemma rows_stable n : forall m x, rank x <= n -> rank x <= m -> rows n x = rows m x.
Proof.
  induction n as [|n IH]; intros [|m] x Hn Hm; simpl; try reflexivity.
  - destruct (step x) as [|y l] eqn:E; [reflexivity |].
    assert (rank y < rank x) by (apply step_decreases; rewrite E; now left). lia.
  - destruct (step x) as [|y l] eqn:E; [reflexivity |].
    assert (rank y < rank x) by (apply step_decreases; rewrite E; now left). lia.
  - f_equal. f_equal. apply map_ext_in. intros y Hy.
    apply step_decreases in Hy. apply IH; lia.
Qed.

Lemma rows_unfold n x :
  rank x <= n -> rows n x = 1 + list_sum (map (rows n) (step x)).
Proof.
  intros Hn. destruct n as [|n].
  - simpl. destruct (step x) as [|y l] eqn:E; [reflexivity |].
    assert (rank y < rank x) by (apply step_decreases; rewrite E; now left). lia.
  - change (rows (S n) x) with (1 + list_sum (map (rows n) (step x))).
    f_equal. f_equal. apply map_ext_in. intros y Hy.
    apply step_decreases in Hy. apply rows_stable; lia.
Qed.

Lemma list_sum_map_app (f : string -> nat) l1 l2 :
  list_sum (map f (l1 ++ l2)) = list_sum (map f l1) + list_sum (map f l2).
Proof. now rewrite map_app, list_sum_app. Qed.

Lemma with_recursive_terminates n fuel : forall queue,
  (forall x, In x queue -> rank x <= n) ->
  list_sum (map (rows n) queue) <= fuel ->
  exists out, with_recursive fuel queue = Some out.
Proof.
  induction fuel as [|k IH]; intros [|row rest] Hrank Hfuel; simpl.
  - now exists [].
  - simpl in Hfuel. rewrite rows_unfold in Hfuel by (apply Hrank; now left). lia.
  - now exists [].
  - simpl in Hfuel. rewrite rows_unfold in Hfuel by (apply Hrank; now left).
    destruct (IH (rest ++ step row)) as [out Hout].
    + intros x Hx. apply in_app_or in Hx. destruct Hx as [Hx|Hx].
      * apply Hrank. now right.
      * apply step_decreases in Hx. specialize (Hrank row (or_introl eq_refl)). lia.
    + rewrite list_sum_map_app. lia.
    + rewrite Hout. now exists (row :: out).
Qed.

Lemma paths_stable c n : forall m x, rank x <= n -> rank x <= m -> paths n c x = paths m c x.
Proof.
  induction n as [|n IH]; intros [|m] x Hn Hm; cbn [paths]; try reflexivity.
  - destruct (step x) as [|y l] eqn:E; [cbn; lia |].
    assert (rank y < rank x) by (apply step_decreases; rewrite E; now left). lia.
  - destruct (step x) as [|y l] eqn:E; [cbn; lia |].
    assert (rank y < rank x) by (apply step_decreases; rewrite E; now left). lia.
  - f_equal. f_equal. apply map_ext_in. intros y Hy.
    apply step_decreases in Hy. apply IH; lia.
Qed.

Lemma paths_unfold c n x :
  rank x <= n -> paths n c x = here c x + list_sum (map (paths n c) (step x)).
Proof.
  intros Hn. destruct n as [|n].
  - cbn [paths]. destruct (step x) as [|y l] eqn:E; [cbn; lia |].
    assert (rank y < rank x) by (apply step_decreases; rewrite E; now left). lia.
  - change (paths (S n) c x) with (here c x + list_sum (map (paths n c) (step x))).
    f_equal. f_equal. apply map_ext_in. intros y Hy.
    apply step_decreases in Hy. apply paths_stable; lia.
Qed.

Lemma count_occ_here (l : list string) row c :
  count_occ string_dec (row :: l) c = here c row + count_occ string_dec l c.
Proof.
  unfold here. destruct (String.eqb_spec row c) as [Heq|Hne].
  - now rewrite count_occ_cons_eq.
  - now rewrite count_occ_cons_neq.
Qed.

Lemma with_recursive_count c n fuel : forall queue out,
  (forall x, In x queue -> rank x <= n) ->
  with_recursive fuel queue = Some out ->
  count_occ string_dec out c = list_sum (map (paths n c) queue).
Proof.
  induction fuel as [|k IH]; intros [|row rest] out Hrank H; cbn [with_recursive] in H;
    try discriminate; try (injection H as <-; reflexivity).
  destruct (with_recursive k (rest ++ step row)) as [l|] eqn:E; [| discriminate].
  injection H as <-. rewrite count_occ_here, (IH (rest ++ step row) l).
  - rewrite list_sum_map_app.
    change (list_sum (map (paths n c) (row :: rest)))
      with (paths n c row + list_sum (map (paths n c) rest)).
    rewrite (paths_unfold c n row) by (apply Hrank; now left). lia.
  - intros x Hx. apply in_app_or in Hx. destruct Hx as [Hx|Hx].
    + apply Hrank. now right.
    + apply step_decreases in Hx. specialize (Hrank row (or_introl eq_refl)). lia.
  - exact E.
Qed.

Lemma with_recursive_length n fuel : forall queue out,
  (forall x, In x queue -> rank x <= n) ->
  with_recursive fuel queue = Some out ->
  List.length out = list_sum (map (rows n) queue).
Proof.
  induction fuel as [|k IH]; intros [|row rest] out Hrank H; cbn [with_recursive] in H;
    try discriminate; try (injection H as <-; reflexivity).
  destruct (with_recursive k (rest ++ step row)) as [l|] eqn:E; [| discriminate].
  injection H as <-. cbn [List.length]. rewrite (IH (rest ++ step row) l).
  - rewrite list_sum_map_app.
    change (list_sum (map (rows n) (row :: rest)))
      with (rows n row + list_sum (map (rows n) rest)).
    rewrite (rows_unfold n row) by (apply Hrank; now left). lia.
  - intros x Hx. apply in_app_or in Hx. destruct Hx as [Hx|Hx].
    + apply Hrank. now right.
    + apply step_decreases in Hx. specialize (Hrank row (or_introl eq_refl)). lia.
  - exact E.
Qed.

Lemma with_recursive_needs_fuel n fuel : forall queue,
  (forall x, In x queue -> rank x <= n) ->
  fuel < list_sum (map (rows n) queue) ->
  with_recursive fuel queue = None.
Proof.
  induction fuel as [|k IH]; intros [|row rest] Hrank Hfuel;
    try (cbn in Hfuel; lia); [reflexivity |].
  change (list_sum (map (rows n) (row :: rest)))
    with (rows n row + list_sum (map (rows n) rest)) in Hfuel.
  cbn [with_recursive]. rewrite IH; [reflexivity | |].
  - intros x Hx. apply in_app_or in Hx. destruct Hx as [Hx|Hx].
    + apply Hrank. now right.
    + apply step_decreases in Hx. specialize (Hrank row (or_introl eq_refl)). lia.
  - rewrite list_sum_map_app.
    rewrite (rows_unfold n row) in Hfuel by (apply Hrank; now left). lia.
Qed.

End Ranked.

End WithRecursive.

End Cte.

(** ** The change graph (the schema types of the database,
       query-utilities/change-in-branch.ts) *)
Module ChangeGraph.

Record Change := {
  id : string;
  entity_id : string;
  file_id : string;
  plugin_key : string;
  type : string;
  snapshot_id : string;
  created_at : string
}.

Record ChangeEdge := { parent_id : string; child_id : string }.

Record ChangeSetElement := { change_set_id : string; change_id : string }.

(** [Pick<Branch, "change_set_id">]. *)
Record Branch := { branch_change_set_id : string }.

(** The tables the two queries read. *)
Record Db := {
  change : list Change;
  change_set_element : list ChangeSetElement;
  change_edge : list ChangeEdge
}.

(** [SELECT change_id AS id FROM change_set_element WHERE change_set_id = ?] *)
Definition initial_select (db : Db) (cs : string) : list string :=
  map change_id (filter (fun e => change_set_id e =? cs)%string (change_set_element db)).

(** [SELECT change_edge.parent_id AS id FROM change_edge INNER JOIN
    recursive_changes ON recursive_changes.id = change_edge.child_id],
    for the single row [row] of [recursive_changes]. *)
Definition recursive_select (db : Db) (row : string) : list string :=
  map parent_id (filter (fun e => child_id e =? row)%string (change_edge db)).

Definition recursive_changes (fuel : nat) (db : Db) (cs : string) : option (list string) :=
  Cte.with_recursive (recursive_select db) fuel (initial_select db cs).

(** [change.id IN (WITH RECURSIVE recursive_changes ... SELECT id FROM
    recursive_changes)]: the filter [changeInBranch] builds, at one row of
    [change].  [None] when the fuel ran out before the queue was empty. *)
Definition changeInBranch (fuel : nat) (db : Db) (branch : Branch) (c : Change)
  : option bool :=
  option_map (existsb (String.eqb (id c)))
    (recursive_changes fuel db (branch_change_set_id branch)).

(** Modelled from the spec: [changeIsLeafOf] is imported by its test from
    change-is-leaf-of.js, which is not among the sources.  Section 4.2:
    "leafOf(change): the unique change reachable by repeatedly following
    child edges with no further children", a recursive closure over the
    edges like [changeInBranch], walked from parent to child.  The test
    uses it as a filter on the rows of [change] and takes the first row. *)
Definition child_select (db : Db) (row : string) : list string :=
  map child_id (filter (fun e => parent_id e =? row)%string (change_edge db)).

(** Modelled from the spec: "with no further children" of section 4.2, the
    filter of the missing change-is-leaf-of.js: no edge has the change as
    its parent. *)
Definition has_children (db : Db) (row : string) : bool :=
  existsb (fun e => parent_id e =? row)%string (change_edge db).

(** Modelled from the spec: "reachable by repeatedly following child
    edges" (section 4.2), the closure of the missing change-is-leaf-of.js. *)
Definition descendants (fuel : nat) (db : Db) (c : string) : option (list string) :=
  Cte.with_recursive (child_select db) fuel [c].

(** Modelled from the spec: the descendants "with no further children"
    (section 4.2; change-is-leaf-of.js is missing). *)
Definition leaves (fuel : nat) (db : Db) (c : string) : option (list string) :=
  option_map (filter (fun x => negb (has_children db x))) (descendants fuel db c).

(** Modelled from the spec: the filter of the missing change-is-leaf-of.js
    on the rows of [change], as its test applies it. *)
Definition changeIsLeafOf (fuel : nat) (db : Db) (c : Change) : option (Change -> bool) :=
  option_map (fun ids row => existsb (String.eqb (id row)) ids) (leaves fuel db (id c)).

(** Modelled from the spec: "leafOf(change) -> Change" (section 4.2), the
    first row the filter of the missing change-is-leaf-of.js keeps. *)
Definition leafOf (fuel : nat) (db : Db) (c : Change) : option Change :=
  match changeIsLeafOf fuel db c with
  | Some is_leaf => find is_leaf (change db)
  | None => None
  end.

(** The edges of a linear chain: each change is the parent of the next. *)
Fixpoint chain_edges (ids : list string) : list ChangeEdge :=
  match ids with
  | [] => []
  | a :: rest =>
      match rest with
      | [] => []
      | b :: _ => {| parent_id := a; child_id := b |} :: chain_edges rest
      end
  end.

(** What the query is to compute: [y] is a parent of [x]. *)
Definition parent_of (db : Db) (x y : string) : Prop :=
  In {| parent_id := y; child_id := x |} (change_edge db).

Definition member (db : Db) (cs c : string) : Prop :=
  In {| change_set_id := cs; change_id := c |} (change_set_element db).

Definition ancestor_or_member (db : Db) (cs c : string) : Prop :=
  exists m, member db cs m /\ clos_refl_trans string (parent_of db) m c.

(** Edges only point from a change to changes created before it. *)
Definition edges_ranked (db : Db) (rank : string -> nat) : Prop :=
  forall e, In e (change_edge db) -> rank (parent_id e) < rank (child_id e).

(** The three changes and two edges of the test "it should find the latest
    child of a given change", with the branch pointing at the last one. *)
Definition mock_change (i : string) : Change :=
  {| id := i; entity_id := "value1"; file_id := "mock"; plugin_key := "mock";
     type := "mock"; snapshot_id := "no-content"; created_at := "mock" |}.

Definition mock_chain : list Change := [mock_change "1"; mock_change "2"; mock_change "3"].

Definition mock_db : Db :=
  {| change := mock_chain;
     change_set_element := [{| change_set_id := "branch"; change_id := "3" |}];
     change_edge := [{| parent_id := "1"; child_id := "2" |};
                     {| parent_id := "2"; child_id := "3" |}] |}.

Definition mock_rank (c : string) : nat :=
  if (c =? "1")%string then 0 else if (c =? "2")%string then 1 else 2.

Lemma in_initial_select db cs c : In c (initial_select db cs) <-> member db cs c.
Proof.
  unfold initial_select, member. rewrite in_map_iff. split.
  - intros ([cs' c'] & Hc & Hin). apply filter_In in Hin. simpl in *.
    destruct Hin as [Hin Heq]. apply String.eqb_eq in Heq. now subst.
  - intros Hin. eexists. split; [| apply filter_In; split; [exact Hin |]]; simpl.
    + reflexivity.
    + apply String.eqb_refl.
Qed.

Lemma in_recursive_select db x y : In y (recursive_select db x) <-> parent_of db x y.
Proof.
  unfold recursive_select, parent_of. rewrite in_map_iff. split.
  - intros ([p c] & Hp & Hin). apply filter_In in Hin. simpl in *.
    destruct Hin as [Hin Heq]. apply String.eqb_eq in Heq. now subst.
  - intros Hin. eexists. split; [| apply filter_In; split; [exact Hin |]]; simpl.
    + reflexivity.
    + apply String.eqb_refl.
Qed.

Lemma reach_parent_of db x c :
  clos_refl_trans_1n _ (Cte.edge (recursive_select db)) x c <->
  clos_refl_trans string (parent_of db) x c.
Proof.
  rewrite <- clos_rt_rt1n_iff. split; intros H.
  - induction H as [a b H| |a b c' _ IH1 _ IH2].
    + apply rt_step. now apply in_recursive_select.
    + apply rt_refl.
    + eapply rt_trans; eassumption.
  - induction H as [a b H| |a b c' _ IH1 _ IH2].
    + apply rt_step. now apply in_recursive_select.
    + apply rt_refl.
    + eapply rt_trans; eassumption.
Qed.

Lemma recursive_select_decreases db rank :
  edges_ranked db rank ->
  forall x y, In y (recursive_select db x) -> rank y < rank x.
Proof.
  intros Hr x y Hy. apply in_recursive_select in Hy. apply (Hr _ Hy).
Qed.

(** C4: on a change graph whose edges point to earlier changes (the DAG
    invariant of the data model), the recursive query of [changeInBranch]
    terminates, and for every change it answers true exactly when the change
    is a member of the branch's change set or is reached from a member by
    parent edges, over chains of any length. *)
Theorem changeInBranch_is_ancestor_closure (db : Db) (rank : string -> nat) :
  edges_ranked db rank ->
  forall branch, exists fuel, forall fuel', fuel <= fuel' ->
  forall c, exists b,
    changeInBranch fuel' db branch c = Some b /\
    (b = true <-> ancestor_or_member db (branch_change_set_id branch) (id c)).
Proof.
  intros Hr branch.
  set (cs := branch_change_set_id branch).
  set (n := list_max (map rank (initial_select db cs))).
  set (fuel := list_sum (map (Cte.rows (recursive_select db) n) (initial_select db cs))).
  exists fuel. intros fuel' Hfuel c.
  destruct (Cte.with_recursive_terminates (recursive_select db) rank
              (recursive_select_decreases db rank Hr) n fuel (initial_select db cs))
    as [out Hout].
  - intros x Hx. now apply list_max_ge.
  - apply Nat.le_refl.
  - apply Cte.with_recursive_more_fuel with (extra := fuel' - fuel) in Hout.
    replace (fuel + (fuel' - fuel)) with fuel' in Hout by lia.
    exists (existsb (String.eqb (id c)) out). split.
    + unfold changeInBranch, recursive_changes. fold cs. now rewrite Hout.
    + rewrite existsb_eqb_In. split.
      * intros Hin.
        destruct (Cte.with_recursive_sound _ _ _ _ _ Hout Hin) as (m & Hm & Hreach).
        exists m. split; [now apply in_initial_select | now apply reach_parent_of].
      * intros (m & Hm & Hreach).
        apply (Cte.with_recursive_complete _ _ _ _ m _ Hout).
        -- now apply in_initial_select.
        -- now apply reach_parent_of.
Qed.

Lemma chain_edges_parent_in ids e :
  In e (chain_edges ids) -> In (parent_id e) (removelast ids).
Proof.
  induction ids as [|a rest IH]; [intros [] |].
  destruct rest as [|b rest]; [intros [] |].
  intros [<-|H]; [now left | right; now apply IH].
Qed.

Lemma removelast_subset (ids : list string) x : In x (removelast ids) -> In x ids.
Proof.
  induction ids as [|a rest IH]; [intros [] |].
  destruct rest as [|b rest]; [intros [] |].
  intros [->|H]; [now left | right; now apply IH].
Qed.

Lemma chain_edges_app pre c rest :
  chain_edges (pre ++ c :: rest) = chain_edges (pre ++ [c]) ++ chain_edges (c :: rest).
Proof.
  induction pre as [|a pre IH]; [reflexivity |].
  change ((a :: pre) ++ c :: rest) with (a :: (pre ++ c :: rest)).
  change ((a :: pre) ++ [c]) with (a :: (pre ++ [c])).
  destruct pre as [|b pre]; simpl in *; [reflexivity |].
  now rewrite IH.
Qed.

Lemma no_parent_no_edge edges c :
  (forall e, In e edges -> parent_id e <> c) ->
  filter (fun e => parent_id e =? c)%string edges = [].
Proof.
  induction edges as [|e edges IH]; intros H; [reflexivity |]. simpl.
  destruct (String.eqb_spec (parent_id e) c) as [Heq|_].
  - exfalso. apply (H e); [now left | assumption].
  - apply IH. intros e' He'. apply H. now right.
Qed.

Lemma chain_prefix_no_edge pre c :
  ~ In c pre ->
  filter (fun e => parent_id e =? c)%string (chain_edges (pre ++ [c])) = [].
Proof.
  intros Hc. apply no_parent_no_edge. intros e He Heq.
  apply chain_edges_parent_in in He. rewrite removelast_last in He. now subst.
Qed.

Lemma chain_suffix_no_edge ids c :
  ~ In c ids ->
  filter (fun e => parent_id e =? c)%string (chain_edges ids) = [].
Proof.
  intros Hc. apply no_parent_no_edge. intros e He Heq.
  apply chain_edges_parent_in, removelast_subset in He. now subst.
Qed.

Lemma chain_edges_of pre c suf :
  NoDup (pre ++ c :: suf) ->
  filter (fun e => parent_id e =? c)%string (chain_edges (pre ++ c :: suf)) =
  match suf with
  | [] => []
  | d :: _ => [{| parent_id := c; child_id := d |}]
  end.
Proof.
  intros Hnd. apply NoDup_remove in Hnd. destruct Hnd as [Hnd Hc].
  assert (Hpre : ~ In c pre) by (intros H; apply Hc, in_or_app; now left).
  assert (Hsuf : ~ In c suf) by (intros H; apply Hc, in_or_app; now right).
  rewrite chain_edges_app, filter_app, chain_prefix_no_edge by assumption.
  destruct suf as [|d suf]; [reflexivity |].
  change (chain_edges (c :: d :: suf))
    with ({| parent_id := c; child_id := d |} :: chain_edges (d :: suf)).
  cbn [app filter parent_id]. rewrite String.eqb_refl.
  now rewrite chain_suffix_no_edge.
Qed.

(** The chain lies in a store that may hold other changes and edges: the
    edges of the chain are edges of the store, and a change of the chain
    is the parent of no other change. *)
Definition chain_in (db : Db) (ids : list string) : Prop :=
  (forall e, In e (chain_edges ids) -> In e (change_edge db)) /\
  (forall e, In e (change_edge db) -> In (parent_id e) ids -> In e (chain_edges ids)).

Lemma NoDup_all_equal {A} (l : list A) (x : A) :
  NoDup l -> In x l -> (forall y, In y l -> y = x) -> l = [x].
Proof.
  intros Hnd Hin Hall. destruct l as [|a l]; [destruct Hin |].
  assert (a = x) by (apply Hall; now left). subst a.
  destruct l as [|b l]; [reflexivity |].
  assert (b = x) by (apply Hall; right; now left). subst b.
  inversion Hnd as [|y l' Hnot _]. elim Hnot. now left.
Qed.

(** In such a store the edges that leave a change of the chain are the
    one edge to the next change, and none at the last change. *)
Lemma chain_children (db : Db) pre c suf :
  NoDup (change_edge db) -> NoDup (pre ++ c :: suf) ->
  chain_in db (pre ++ c :: suf) ->
  filter (fun e => parent_id e =? c)%string (change_edge db) =
  match suf with
  | [] => []
  | d :: _ => [{| parent_id := c; child_id := d |}]
  end.
Proof.
  intros Hedges Hnd [Hsub Honly].
  assert (Hchain := chain_edges_of pre c suf Hnd).
  assert (Hin : forall e,
            In e (filter (fun e => parent_id e =? c)%string (change_edge db)) ->
            In e (filter (fun e => parent_id e =? c)%string (chain_edges (pre ++ c :: suf)))).
  { intros e He. apply filter_In in He. destruct He as [He Hp].
    apply filter_In. split; [| exact Hp]. apply Honly; [exact He |].
    apply String.eqb_eq in Hp. rewrite Hp. apply in_or_app. right. now left. }
  rewrite Hchain in Hin. destruct suf as [|d suf].
  - destruct (filter _ (change_edge db)) as [|e l]; [reflexivity |].
    destruct (Hin e (or_introl eq_refl)).
  - apply NoDup_all_equal.
    + now apply NoDup_filter.
    + apply filter_In. split; [| apply String.eqb_refl].
      apply Hsub.
      assert (H : In {| parent_id := c; child_id := d |}
                    (filter (fun e => parent_id e =? c)%string
                            (chain_edges (pre ++ c :: d :: suf))))
        by (rewrite Hchain; now left).
      now apply filter_In in H.
    + intros e He. destruct (Hin e He) as [<-|[]]. reflexivity.
Qed.

Lemma descendants_of_chain (db : Db) suf : forall pre c,
  NoDup (change_edge db) -> NoDup (pre ++ c :: suf) ->
  chain_in db (pre ++ c :: suf) ->
  descendants (S (List.length suf)) db c = Some (c :: suf).
Proof.
  unfold descendants.
  induction suf as [|d suf IH]; intros pre c Hedges Hnd Hdb;
    rewrite Cte.with_recursive_single;
    unfold child_select at 2; rewrite (chain_children db pre c _ Hedges Hnd Hdb).
  - reflexivity.
  - cbn [map child_id List.length].
    rewrite (IH (pre ++ [c]) d); [reflexivity | exact Hedges | |]; now rewrite <- app_assoc.
Qed.

Lemma leaves_of_chain (db : Db) suf : forall pre c,
  NoDup (change_edge db) -> NoDup (pre ++ c :: suf) ->
  chain_in db (pre ++ c :: suf) ->
  filter (fun x => negb (has_children db x)) (c :: suf) = [last (c :: suf) c].
Proof.
  induction suf as [|d suf IH]; intros pre c Hedges Hnd Hdb.
  - cbn [filter]. unfold has_children. rewrite existsb_filter_nil by
      (now apply (chain_children db pre c [])).
    reflexivity.
  - assert (Hex : has_children db c = true).
    { apply existsb_exists. exists {| parent_id := c; child_id := d |}.
      split; [| apply String.eqb_refl].
      assert (H := chain_children db pre c (d :: suf) Hedges Hnd Hdb).
      assert (Hin : In {| parent_id := c; child_id := d |}
                      (filter (fun e => parent_id e =? c)%string (change_edge db)))
        by (rewrite H; now left).
      now apply filter_In in Hin. }
    rewrite filter_cons_eq, Hex. cbn [negb].
    rewrite (IH (pre ++ [c]) d) by (try exact Hedges; now rewrite <- app_assoc).
    change (last (c :: d :: suf) c) with (last (d :: suf) c).
    f_equal. apply last_indep.
Qed.

Lemma find_by_id (rows : list Change) (r : Change) :
  NoDup (map id rows) -> In r rows ->
  find (fun row => existsb (String.eqb (id row)) [id r]) rows = Some r.
Proof.
  induction rows as [|a rows IH]; intros Hnd Hin; [destruct Hin |].
  simpl in Hnd. inversion Hnd as [|x l Ha Hnd']; subst.
  cbn [find existsb]. destruct (String.eqb_spec (id a) (id r)) as [Heq|Hne]; cbn [orb].
  - destruct Hin as [->|Hin]; [reflexivity |].
    exfalso. apply Ha. rewrite Heq. now apply in_map.
  - destruct Hin as [->|Hin]; [congruence |]. now apply IH.
Qed.

(** C5: in a linear chain of changes, each the parent of the next, the
    leaf of every change of the chain is the last change of the chain; for
    the chain A, B, C the leaf of A, of B and of C is C.  The chain lies
    in a store that may hold any other changes and edges, of other
    entities or of other branches, as long as no change of the chain has
    a child besides the next change of the chain; the ids of the changes
    and the edges are the primary keys of their tables. *)
Theorem leafOf_linear_chain (db : Db) (chain : list Change) :
  NoDup (map id (change db)) ->
  NoDup (change_edge db) ->
  NoDup (map id chain) ->
  incl chain (change db) ->
  chain_in db (map id chain) ->
  forall c, In c chain ->
  exists fuel, forall fuel', fuel <= fuel' ->
    leafOf fuel' db c = Some (last chain c).
Proof.
  intros Hids Hedges Hnd Hrows Hin c Hc.
  assert (Hlast : In (last chain c) (change db)).
  { apply Hrows. destruct (in_split _ _ Hc) as (pre & suf & ->).
    rewrite last_app_cons. apply in_or_app. right. apply last_in. }
  destruct (in_split _ _ Hc) as (pre & suf & ->).
  rewrite map_app in Hnd, Hin. cbn [map] in Hnd, Hin.
  exists (S (List.length (map id suf))). intros fuel' Hfuel.
  assert (Hd := descendants_of_chain db _ _ _ Hedges Hnd Hin).
  unfold descendants in Hd.
  apply Cte.with_recursive_more_fuel
    with (extra := fuel' - S (List.length (map id suf))) in Hd.
  replace (S (List.length (map id suf)) + (fuel' - S (List.length (map id suf))))
    with fuel' in Hd by lia.
  unfold leafOf, changeIsLeafOf, leaves, descendants. rewrite Hd. cbn [option_map].
  rewrite (leaves_of_chain db _ _ _ Hedges Hnd Hin).
  change (id c :: map id suf) with (map id (c :: suf)).
  rewrite (last_map id). rewrite last_app_cons in Hlast |- *.
  now apply find_by_id.
Qed.


Example changeInBranch_mock_db :
  map (changeInBranch 3 mock_db {| branch_change_set_id := "branch" |}) mock_chain
  = [Some true; Some true; Some true] /\
  changeInBranch 3 mock_db {| branch_change_set_id := "branch" |} (mock_change "4")
  = Some false /\
  changeInBranch 2 mock_db {| branch_change_set_id := "branch" |} (mock_change "1")
  = None.
Proof. repeat split. Qed.

Example leafOf_mock_db :
  map (leafOf 3 mock_db) mock_chain
  = [Some (mock_change "3"); Some (mock_change "3"); Some (mock_change "3")].
Proof. reflexivity. Qed.

Lemma changeInBranch_is_ancestor_closure_witness :
  edges_ranked mock_db mock_rank /\
  forall branch, exists fuel, forall fuel', fuel <= fuel' ->
  forall c, exists b,
    changeInBranch fuel' mock_db branch c = Some b /\
    (b = true <-> ancestor_or_member mock_db (branch_change_set_id branch) (id c)).
Proof.
  assert (H : edges_ranked mock_db mock_rank).
  { intros e [<-|[<-|[]]]; vm_compute; lia. }
  split; [exact H | exact (changeInBranch_is_ancestor_closure mock_db mock_rank H)].
Defined.

(** The chain of the test in a store with two more changes, one the
    parent of the other, whose childless change is the first row of the
    table. *)
Definition two_chains_db : Db :=
  {| change := map mock_change ["9"; "1"; "2"; "3"; "8"];
     change_set_element := [{| change_set_id := "branch"; change_id := "3" |};
                            {| change_set_id := "branch"; change_id := "9" |}];
     change_edge := [{| parent_id := "8"; child_id := "9" |};
                     {| parent_id := "1"; child_id := "2" |};
                     {| parent_id := "2"; child_id := "3" |}] |}.

Example leafOf_two_chains_db :
  map (leafOf 3 two_chains_db) (map mock_change ["1"; "2"; "3"; "8"; "9"])
  = map (fun i => Some (mock_change i)) ["3"; "3"; "3"; "9"; "9"].
Proof. reflexivity. Qed.

Lemma leafOf_linear_chain_witness :
  NoDup (map id (change two_chains_db)) /\
  NoDup (change_edge two_chains_db) /\
  NoDup (map id mock_chain) /\
  incl mock_chain (change two_chains_db) /\
  chain_in two_chains_db (map id mock_chain) /\
  forall c, In c mock_chain ->
  exists fuel, forall fuel', fuel <= fuel' ->
    leafOf fuel' two_chains_db c = Some (last mock_chain c).
Proof.
  assert (H1 : NoDup (map id (change two_chains_db))).
  { repeat constructor; simpl; intuition discriminate. }
  assert (H2 : NoDup (change_edge two_chains_db)).
  { repeat constructor; simpl; intuition discriminate. }
  assert (H3 : NoDup (map id mock_chain)).
  { repeat constructor; simpl; intuition discriminate. }
  assert (H4 : incl mock_chain (change two_chains_db)).
  { intros x [<-|[<-|[<-|[]]]]; simpl; tauto. }
  assert (H5 : chain_in two_chains_db (map id mock_chain)).
  { split.
    - intros e [<-|[<-|[]]]; simpl; tauto.
    - intros e [<-|[<-|[<-|[]]]] Hp; simpl in *; intuition discriminate. }
  refine (conj H1 (conj H2 (conj H3 (conj H4 (conj H5 _))))).
  exact (leafOf_linear_chain two_chains_db mock_chain H1 H2 H3 H4 H5).
Defined.

(** *** What the query does with shared ancestors and with cycles *)

(** A graph in which change 4 reaches change 1 along two paths, and a
    graph in which changes 1 and 2 are each the parent of the other. *)
Definition diamond_db : Db :=
  {| change := map mock_change ["1"; "2"; "3"; "4"];
     change_set_element := [{| change_set_id := "branch"; change_id := "4" |}];
     change_edge := [{| parent_id := "1"; child_id := "2" |};
                     {| parent_id := "1"; child_id := "3" |};
                     {| parent_id := "2"; child_id := "4" |};
                     {| parent_id := "3"; child_id := "4" |}] |}.

Definition diamond_rank (c : string) : nat :=
  if (c =? "1")%string then 0
  else if (c =? "2")%string then 1
  else if (c =? "3")%string then 1 else 2.

Definition cyclic_db : Db :=
  {| change := map mock_change ["1"; "2"; "3"];
     change_set_element := [{| change_set_id := "branch"; change_id := "3" |}];
     change_edge := [{| parent_id := "1"; child_id := "2" |};
                     {| parent_id := "2"; child_id := "1" |};
                     {| parent_id := "2"; child_id := "3" |}] |}.

Lemma clos_trans_refl_trans {A} (R : relation A) x y :
  clos_trans A R x y -> clos_refl_trans A R x y.
Proof.
  induction 1 as [x y H|x y z _ IH1 _ IH2];
    [now apply rt_step | eapply rt_trans; eassumption].
Qed.

Lemma on_cycle_has_parent db c x :
  clos_trans string (parent_of db) c c ->
  clos_refl_trans string (parent_of db) x c ->
  exists y, In y (recursive_select db x) /\ clos_refl_trans string (parent_of db) y c.
Proof.
  intros Hcycle Hreach.
  assert (Hstep : forall a, clos_trans string (parent_of db) a c ->
            exists y, parent_of db a y /\ clos_refl_trans string (parent_of db) y c).
  { intros a Ha. apply clos_trans_t1n in Ha. destruct Ha as [y Hy|y z Hy Hyz].
    - exists y. split; [assumption | apply rt_refl].
    - exists y. split; [assumption |]. now apply clos_trans_refl_trans, clos_t1n_trans. }
  apply clos_rt_rt1n in Hreach. destruct Hreach as [|y z Hxy Hyz].
  - destruct (Hstep x Hcycle) as (y & Hy & Hyc).
    exists y. split; [now apply in_recursive_select | assumption].
  - exists y. split; [now apply in_recursive_select | now apply clos_rt1n_rt].
Qed.

(** X8: when a member of the branch's change set reaches, by parent
    edges, a change that lies on a cycle of parent edges, the recursive
    query of [changeInBranch] never runs out of rows: it gives no answer,
    for any change, whatever number of steps it is allowed. *)
Theorem changeInBranch_cycle_gives_no_answer (db : Db) (branch : Branch) (m c : string) :
  member db (branch_change_set_id branch) m ->
  clos_refl_trans string (parent_of db) m c ->
  clos_trans string (parent_of db) c c ->
  forall fuel row, changeInBranch fuel db branch row = None.
Proof.
  intros Hm Hreach Hcycle fuel row. unfold changeInBranch, recursive_changes.
  rewrite (Cte.with_recursive_diverges (recursive_select db)
             (fun x => clos_refl_trans string (parent_of db) x c)); [reflexivity | |].
  - intros x Hx. now apply on_cycle_has_parent.
  - exists m. split; [now apply in_initial_select | assumption].
Qed.

Lemma changeInBranch_cycle_gives_no_answer_witness :
  member cyclic_db "branch" "3" /\
  clos_refl_trans string (parent_of cyclic_db) "3" "2" /\
  clos_trans string (parent_of cyclic_db) "2" "2" /\
  forall fuel row,
    changeInBranch fuel cyclic_db {| branch_change_set_id := "branch" |} row = None.
Proof.
  assert (H1 : member cyclic_db "branch" "3") by (now left).
  assert (H2 : clos_refl_trans string (parent_of cyclic_db) "3" "2").
  { apply rt_step. right. right. now left. }
  assert (H3 : clos_trans string (parent_of cyclic_db) "2" "2").
  { apply t_trans with (y := "1"%string); apply t_step; [now left | right; now left]. }
  refine (conj H1 (conj H2 (conj H3 _))).
  exact (changeInBranch_cycle_gives_no_answer cyclic_db
           {| branch_change_set_id := "branch" |} "3" "2" H1 H2 H3).
Defined.

(** X9: on a change graph whose edges point to earlier changes, the rows
    of the recursive query list a change once for every path of parent
    edges that leads to it from a member of the change set (UNION ALL
    keeps the duplicates), and the number of rows is the number of all
    paths that start at a member. *)
Theorem recursive_changes_one_row_per_path (db : Db) (rank : string -> nat)
    (n fuel : nat) (cs : string) (out : list string) :
  edges_ranked db rank ->
  (forall m, member db cs m -> rank m <= n) ->
  recursive_changes fuel db cs = Some out ->
  (forall c, count_occ string_dec out c =
             list_sum (map (Cte.paths (recursive_select db) n c) (initial_select db cs))) /\
  List.length out = list_sum (map (Cte.rows (recursive_select db) n) (initial_select db cs)).
Proof.
  intros Hr Hn Hout.
  assert (Hrank : forall x, In x (initial_select db cs) -> rank x <= n)
    by (intros x Hx; now apply Hn, in_initial_select).
  split.
  - intros c.
    exact (Cte.with_recursive_count (recursive_select db) rank
             (recursive_select_decreases db rank Hr) c n fuel _ out Hrank Hout).
  - exact (Cte.with_recursive_length (recursive_select db) rank
             (recursive_select_decreases db rank Hr) n fuel _ out Hrank Hout).
Qed.

Example recursive_changes_diamond :
  recursive_changes 5 diamond_db "branch" = Some ["4"; "2"; "3"; "1"; "1"]%string.
Proof. reflexivity. Qed.

Lemma recursive_changes_one_row_per_path_witness :
  edges_ranked diamond_db diamond_rank /\
  (forall m, member diamond_db "branch" m -> diamond_rank m <= 2) /\
  recursive_changes 5 diamond_db "branch" = Some ["4"; "2"; "3"; "1"; "1"]%string /\
  (forall c, count_occ string_dec ["4"; "2"; "3"; "1"; "1"]%string c =
             list_sum (map (Cte.paths (recursive_select diamond_db) 2 c)
                           (initial_select diamond_db "branch"))) /\
  List.length ["4"; "2"; "3"; "1"; "1"]%string =
  list_sum (map (Cte.rows (recursive_select diamond_db) 2)
                (initial_select diamond_db "branch")).
Proof.
  assert (H1 : edges_ranked diamond_db diamond_rank).
  { intros e [<-|[<-|[<-|[<-|[]]]]]; vm_compute; lia. }
  assert (H2 : forall m, member diamond_db "branch" m -> diamond_rank m <= 2).
  { intros m [H|[]]. injection H as <-. vm_compute. lia. }
  refine (conj H1 (conj H2 (conj eq_refl _))).
  exact (recursive_changes_one_row_per_path diamond_db diamond_rank 2 5 "branch"
           ["4"; "2"; "3"; "1"; "1"]%string H1 H2 eq_refl).
Defined.

(** X10: on such a graph the query needs exactly as many steps as it has
    rows: with fewer it has not finished, with that many or more it
    returns its rows. *)
Theorem recursive_changes_steps (db : Db) (rank : string -> nat) (n : nat) (cs : string) :
  edges_ranked db rank ->
  (forall m, member db cs m -> rank m <= n) ->
  forall fuel,
    recursive_changes fuel db cs = None <->
    fuel < list_sum (map (Cte.rows (recursive_select db) n) (initial_select db cs)).
Proof.
  intros Hr Hn fuel.
  assert (Hrank : forall x, In x (initial_select db cs) -> rank x <= n)
    by (intros x Hx; now apply Hn, in_initial_select).
  split.
  - intros Hnone.
    destruct (Nat.lt_ge_cases fuel
                (list_sum (map (Cte.rows (recursive_select db) n) (initial_select db cs))))
      as [Hlt|Hge]; [assumption |].
    destruct (Cte.with_recursive_terminates (recursive_select db) rank
                (recursive_select_decreases db rank Hr) n fuel _ Hrank Hge) as [out Hout].
    unfold recursive_changes in Hnone. congruence.
  - exact (Cte.with_recursive_needs_fuel (recursive_select db) rank
             (recursive_select_decreases db rank Hr) n fuel _ Hrank).
Qed.

Lemma recursive_changes_steps_witness :
  edges_ranked diamond_db diamond_rank /\
  (forall m, member diamond_db "branch" m -> diamond_rank m <= 2) /\
  forall fuel,
    recursive_changes fuel diamond_db "branch" = None <->
    fuel < list_sum (map (Cte.rows (recursive_select diamond_db) 2)
                         (initial_select diamond_db "branch")).
Proof.
  assert (H1 : edges_ranked diamond_db diamond_rank).
  { intros e [<-|[<-|[<-|[<-|[]]]]]; vm_compute; lia. }
  assert (H2 : forall m, member diamond_db "branch" m -> diamond_rank m <= 2).
  { intros m [H|[]]. injection H as <-. vm_compute. lia. }
  refine (conj H1 (conj H2 _)).
  exact (recursive_changes_steps diamond_db diamond_rank 2 "branch" H1 H2).
Defined.

End ChangeGraph.

(** ** SHA-256 (FIPS 180-4) over byte strings

    The hash the snapshot ids are made of.  Words are 32-bit numbers in
    [N], additions wrap around with [w32], rotations are written out with
    shifts. *)
Module Sha256.

Local Open Scope N_scope.

Definition w32 (x : N) : N := N.land x 0xFFFFFFFF.

Definition add32 (x y : N) : N := w32 (x + y).

Definition rotr (n x : N) : N := N.lor (N.shiftr x n) (w32 (N.shiftl x (32 - n))).

Definition shr (n x : N) : N := N.shiftr x n.

Definition not32 (x : N) : N := N.lxor x 0xFFFFFFFF.

Definition Ch (x y z : N) : N := N.lxor (N.land x y) (N.land (not32 x) z).

Definition Maj (x y z : N) : N :=
  N.lxor (N.lxor (N.land x y) (N.land x z)) (N.land y z).

Definition Sigma0 (x : N) : N := N.lxor (N.lxor (rotr 2 x) (rotr 13 x)) (rotr 22 x).

Definition Sigma1 (x : N) : N := N.lxor (N.lxor (rotr 6 x) (rotr 11 x)) (rotr 25 x).

Definition sigma0 (x : N) : N := N.lxor (N.lxor (rotr 7 x) (rotr 18 x)) (shr 3 x).

Definition sigma1 (x : N) : N := N.lxor (N.lxor (rotr 17 x) (rotr 19 x)) (shr 10 x).

(** The round constants are the first 32 bits of the fractional parts of
    the cube roots of the first 64 primes, the initial hash value those of
    the square roots of the first 8: computed here rather than tabulated. *)
Definition is_prime (n : nat) : bool :=
  forallb (fun d => negb (n mod d =? 0)%nat) (seq 2 (n - 2)).

Definition primes : list N := map N.of_nat (filter is_prime (seq 2 310)).

Fixpoint cube_root_search (fuel : nat) (lo hi x : N) : N :=
  match fuel with
  | O => lo
  | S fuel' =>
      let mid := (lo + hi + 1) / 2 in
      if mid * mid * mid <=? x
      then cube_root_search fuel' mid hi x
      else cube_root_search fuel' lo (mid - 1) x
  end.

Definition cube_root (x : N) : N := cube_root_search 40 0 (N.shiftl 1 35) x.

Definition K : list N :=
  Eval vm_compute in map (fun p => w32 (cube_root (N.shiftl p 96))) primes.

Definition H0 : list N :=
  Eval vm_compute in map (fun p => w32 (N.sqrt (N.shiftl p 64))) (firstn 8 primes).


(** The message with the bit 1, zeros up to 56 modulo 64 bytes, and the
    length in bits as 8 big-endian bytes. *)
Definition be_bytes (count : nat) (x : N) : list N :=
  map (fun i => N.land (N.shiftr x (8 * N.of_nat i)) 0xFF) (rev (seq 0 count)).

Definition pad (msg : list N) : list N :=
  let len := List.length msg in
  let zeros := ((64 - (len + 9) mod 64) mod 64)%nat in
  msg ++ [0x80] ++ repeat 0 zeros ++ be_bytes 8 (8 * N.of_nat len).

Definition be_word (b0 b1 b2 b3 : N) : N :=
  N.lor (N.lor (N.shiftl b0 24) (N.shiftl b1 16)) (N.lor (N.shiftl b2 8) b3).

Fixpoint words (bytes : list N) : list N :=
  match bytes with
  | b0 :: b1 :: b2 :: b3 :: rest => be_word b0 b1 b2 b3 :: words rest
  | _ => []
  end.

(** The message schedule, most recent word first. *)
Fixpoint schedule (n : nat) (w : list N) : list N :=
  match n with
  | O => w
  | S n' =>
      let next := add32 (add32 (sigma1 (nth 1 w 0)) (nth 6 w 0))
                        (add32 (sigma0 (nth 14 w 0)) (nth 15 w 0)) in
      schedule n' (next :: w)
  end.

Definition round (s : list N) (kw : N * N) : list N :=
  match s with
  | [a; b; c; d; e; f; g; h] =>
      let t1 := add32 (add32 (add32 h (Sigma1 e)) (add32 (Ch e f g) (fst kw))) (snd kw) in
      let t2 := add32 (Sigma0 a) (Maj a b c) in
      [add32 t1 t2; a; b; c; add32 d t1; e; f; g]
  | _ => s
  end.

Definition compress (h : list N) (block : list N) : list N :=
  let w := rev (schedule 48 (rev block)) in
  map (fun p => add32 (fst p) (snd p)) (combine h (fold_left round (combine K w) h)).

Fixpoint blocks (n : nat) (h : list N) (ws : list N) : list N :=
  match n with
  | O => h
  | S n' => blocks n' (compress h (firstn 16 ws)) (skipn 16 ws)
  end.

Definition digest (msg : list N) : list N :=
  let ws := words (pad msg) in
  blocks (List.length ws / 16)%nat H0 ws.

Definition hex_digit (x : N) : ascii :=
  if x <? 10 then ascii_of_N (48 + x) else ascii_of_N (87 + x).

Definition hex_word (x : N) : list ascii :=
  map (fun i => hex_digit (N.land (N.shiftr x (4 * N.of_nat i)) 0xF)) (rev (seq 0 8)).

Definition bytes_of_string (s : string) : list N := map N_of_ascii (list_ascii_of_string s).

(** [sha256(text)] of js-sha256: the lower-case hexadecimal digest. *)
Definition sha256 (s : string) : string :=
  string_of_list_ascii (flat_map hex_word (digest (bytes_of_string s))).

Example round_constants :
  List.length K = 64%nat /\ hd 0 K = 0x428a2f98 /\ last K 0 = 0xc67178f2 /\
  hd 0 H0 = 0x6a09e667 /\ last H0 0 = 0x5be0cd19.
Proof. repeat split. Qed.

(** The two standard test vectors. *)
Example sha256_empty :
  sha256 "" = "e3b0c44298fc1c149afbf4c8996fb92427ae41e4649b934ca495991b7852b855"%string.
Proof. vm_compute. reflexivity. Qed.

Example sha256_abc :
  sha256 "abc" = "ba7816bf8f01cfea414140de5dae2223b00361a396177a9cb410ff61f20015ad"%string.
Proof. vm_compute. reflexivity. Qed.













End Sha256.

(** ** The snapshot store (spec 3 and 4.1, database/initDb.test.ts) *)
Module SnapshotStore.

Set Warnings "-register-all".

(** Snapshot content: a JSON value.  Numbers are the integers, strings
    are byte strings (UTF-8), an object is its members in insertion
    order. *)
Inductive Json :=
| JNull
| JBool (b : bool)
| JNumber (z : Z)
| JString (s : string)
| JArray (items : list Json)
| JObject (members : list (string * Json)).

Definition dquote : ascii := "034"%char.

Definition hex4 (n : N) : string :=
  String "0" (String "0" (String (Sha256.hex_digit (N.shiftr n 4))
                            (String (Sha256.hex_digit (N.land n 0xF)) EmptyString))).

(** The escapes of [JSON.stringify]. *)
Definition escape_char (c : ascii) : string :=
  let n := N_of_ascii c in
  if (n =? 34)%N then String "\" (String dquote EmptyString)
  else if (n =? 92)%N then "\\"
  else if (n =? 8)%N then "\b"
  else if (n =? 12)%N then "\f"
  else if (n =? 10)%N then "\n"
  else if (n =? 13)%N then "\r"
  else if (n =? 9)%N then "\t"
  else if (n <? 32)%N then ("\u" ++ hex4 n)%string
  else String c EmptyString.

Fixpoint escape (s : string) : string :=
  match s with
  | EmptyString => EmptyString
  | String c rest => (escape_char c ++ escape rest)%string
  end.

Definition quote (s : string) : string :=
  String dquote (escape s ++ String dquote EmptyString)%string.

Definition number_to_string (z : Z) : string :=
  DecimalString.NilZero.string_of_int (Z.to_int z).

(** Modelled from the spec: the serialization that is hashed (initDb.js
    is missing); section 9 asks for a fixed format, here that of
    [JSON.stringify(value)]: no white space, members in the order given. *)
Fixpoint stringify (v : Json) : string :=
  match v with
  | JNull => "null"
  | JBool true => "true"
  | JBool false => "false"
  | JNumber z => number_to_string z
  | JString s => quote s
  | JArray items => ("[" ++ String.concat "," (map stringify items) ++ "]")%string
  | JObject members =>
      ("{" ++ String.concat ","
                (map (fun kv => quote (fst kv) ++ ":" ++ stringify (snd kv)) members)
           ++ "}")%string
  end.

(** Modelled from the spec: "canonical serialization (stable key ordering,
    fixed number formatting)" of section 9 (initDb.js is missing): the
    members of every object sorted by key. *)
Definition key_leb (a b : string * Json) : bool := String.leb (fst a) (fst b).

Fixpoint insert_member (m : string * Json) (l : list (string * Json)) :=
  match l with
  | [] => [m]
  | h :: t => if key_leb m h then m :: l else h :: insert_member m t
  end.

Definition sort_members (l : list (string * Json)) : list (string * Json) :=
  fold_right insert_member [] l.

Fixpoint canonical (v : Json) : Json :=
  match v with
  | JArray items => JArray (map canonical items)
  | JObject members =>
      JObject (sort_members (map (fun kv => (fst kv, canonical (snd kv))) members))
  | _ => v
  end.

Definition canonical_serialization (v : Json) : string := stringify (canonical v).

Definition no_content : string := "no-content".

(** Modelled from the spec: the snapshot table and its generated id column
    are created by initDb.js, which is not among the sources.  Section 3:
    the id "is a deterministic content hash (SHA-256 over canonical
    serialization of value); a distinguished sentinel id represents no
    content".  Section 4.1: put "computes the canonical content hash,
    inserts the row if absent [...] and returns the id"; null "always maps
    to the fixed sentinel id". *)
Definition snapshot_id (content : Json) : string :=
  match content with
  | JNull => no_content
  | _ => Sha256.sha256 (canonical_serialization content)
  end.

Record Snapshot := { id : string; content : Json }.

(** Modelled from the spec: section 4.1, put "computes the canonical
    content hash, inserts the row if absent (idempotent [...]) and returns
    the id" (the insert into the snapshot table of the missing initDb.js). *)
Definition put (store : list Snapshot) (value : Json) : list Snapshot * Snapshot :=
  let i := snapshot_id value in
  match find (fun row => id row =? i)%string store with
  | Some row => (store, row)
  | None =>
      let row := {| id := i; content := value |} in
      (store ++ [row], row)
  end.

(** Modelled from the spec: section 4.1, get "is a direct lookup". *)
Definition get (store : list Snapshot) (i : string) : option Json :=
  option_map content (find (fun row => id row =? i)%string store).






(** The content of the test "snapshot ids should default to sha256". *)
Definition test_content : Json := JObject [("a", JString "value from insert statement")].

(** The same object with its members in two orders. *)
Definition content_ba : Json := JObject [("b", JNumber 1); ("a", JString "x")].

Definition content_ab : Json := JObject [("a", JString "x"); ("b", JNumber 1)].

Example stringify_test_content :
  let q := String dquote EmptyString in
  canonical_serialization test_content =
  ("{" ++ q ++ "a" ++ q ++ ":" ++ q ++ "value from insert statement" ++ q ++ "}")%string.
Proof. reflexivity. Qed.

Example snapshot_id_test_content :
  snapshot_id test_content =
  "19ce22178013c4a047e8c90135ed57bfe4cc6451917dbb75f5b838922cf10b19".
Proof. vm_compute. reflexivity. Qed.

Example stringify_nested :
  stringify (JArray [JNumber (-12)%Z; JBool true; JNull; JNumber 0%Z]) = "[-12,true,null,0]".
Proof. reflexivity. Qed.













Lemma get_put store value :
  get (fst (put store value)) (snapshot_id value) = Some (content (snd (put store value))).
Proof.
  unfold get, put.
  destruct (find _ store) as [row|] eqn:E; cbn [fst snd].
  - now rewrite E.
  - rewrite (find_app_last _ _ _ E); [reflexivity | apply String.eqb_refl].
Qed.




Example key_order_does_not_matter :
  stringify content_ba <> stringify content_ab /\
  canonical_serialization content_ba = canonical_serialization content_ab.
Proof. split; [discriminate | reflexivity]. Qed.


End SnapshotStore.

(** ** Table constraints (spec 6 and 7, database/initDb.test.ts) *)
Module InitDb.

Record ChangeEdge := { parent_id : string; child_id : string }.

Record Conflict := {
  change_id : string;
  conflicting_change_id : string;
  resolved_change_id : option string;
  reason : option string
}.

Record ChangeSetElement := { element_change_set_id : string; element_change_id : string }.

Record Db := {
  change_edge : list ChangeEdge;
  conflict : list Conflict;
  change_set_element : list ChangeSetElement
}.













End InitDb.

(** ** The mock CSV plugin ([mockCsvPlugin]) *)
Module CsvPlugin.

(** A JavaScript array: a hole, or an index past the end, reads as
    [undefined]; a write past the end extends the array with holes. *)
Definition JsArray (A : Type) : Type := list (option A).

Definition js_get {A} (a : JsArray A) (i : nat) : option A :=
  match nth_error a i with
  | Some x => x
  | None => None
  end.

Fixpoint js_set {A} (a : JsArray A) (i : nat) (v : A) : JsArray A :=
  match i, a with
  | O, [] => [Some v]
  | O, _ :: rest => Some v :: rest
  | S i', [] => None :: js_set [] i' v
  | S i', x :: rest => x :: js_set rest i' v
  end.

(** [a.splice(i, 1)] *)
Definition js_splice1 {A} (a : JsArray A) (i : nat) : JsArray A :=
  firstn i a ++ skipn (S i) a.

(** [a.every(p)]: holes are not visited. *)
Definition js_every {A} (p : A -> bool) (a : JsArray A) : bool :=
  forallb (fun x => match x with Some v => p v | None => true end) a.

Record Cell := { rowIndex : nat; columnIndex : nat; text : string }.

Record DetectedChange := { type : string; entity_id : string; snapshot : option Cell }.

(** [Change & { value }]: a row of [change] with the value of its snapshot. *)
Record ChangeWithSnapshot := { change : ChangeGraph.Change; value : option Cell }.

Record SnapshotRow := { id : string; snapshot_value : option Cell }.

Record LixFile := { file_id : string; path : string; data : string }.

Inductive JsError :=
| Error (message : string)
| NoResultError
| TypeError.

Definition expected_previous_change : JsError :=
  Error "Expected a previous change to exist if a value is undefined (a deletion)".

Definition Data : Type := JsArray (JsArray string).

Definition string_of_nat (n : nat) : string := NilZero.string_of_uint (Nat.to_uint n).

(** [a !== b] on texts that may be [undefined]. *)
Definition strict_neq (a b : option string) : bool :=
  match a, b with
  | None, None => false
  | Some x, Some y => negb (x =? y)%string
  | _, _ => true
  end.

Section Plugin.

(** papaparse is a library: [parse] gives the rows and the meta data of a
    text, [unparse] the text of rows under that meta data, or throws (it
    does on a row that is a hole, whose length it reads).  [parse_data]
    and [parse_meta] are [parse] on the text that [TextDecoder] reads
    from the bytes of a file, [unparse] gives the bytes that
    [TextEncoder] writes for the text. *)
Variable Meta : Type.
Variable parse_data : string -> Data.
Variable parse_meta : string -> Meta.
Variable unparse : Data -> Meta -> JsError + string.

(** The database behind [lix]: the snapshot table, and the parent query
    of query-utilities/get-parent-change.js. *)
Variable Lix : Type.
Variable snapshot_table : Lix -> list SnapshotRow.
Variable getParentChange : Lix -> ChangeWithSnapshot -> option ChangeGraph.Change.

(** The branch [if (change.value)] of the loop of [applyChanges]. *)
Definition apply_value (parsed : Data) (cell : Cell) : Data :=
  let parsed1 :=
    match js_get parsed (rowIndex cell) with
    | None => js_set parsed (rowIndex cell) []
    | Some _ => parsed
    end in
  let row := match js_get parsed1 (rowIndex cell) with Some r => r | None => [] end in
  let row1 :=
    fold_left
      (fun r i =>
         match js_get r i with
         | Some t => if (t =? "")%string then js_set r i ""%string else r
         | None => js_set r i ""%string
         end)
      (seq 0 (columnIndex cell)) row in
  js_set parsed1 (rowIndex cell) (js_set row1 (columnIndex cell) (text cell)).

(** The [else] branch: a deletion. *)
Definition apply_deletion (lix : Lix) (parsed : Data) (c : ChangeWithSnapshot)
  : JsError + Data :=
  match getParentChange lix c with
  | None => inl expected_previous_change
  | Some parent =>
      match find (fun r => id r =? ChangeGraph.snapshot_id parent)%string (snapshot_table lix) with
      | None => inl NoResultError
      | Some parentSnapshot =>
          match snapshot_value parentSnapshot with
          | None => inl TypeError
          | Some cell =>
              match js_get parsed (rowIndex cell) with
              | None => inl TypeError
              | Some row =>
                  let row1 := js_set row (columnIndex cell) ""%string in
                  let parsed1 := js_set parsed (rowIndex cell) row1 in
                  if js_every (fun t => t =? "")%string row1
                  then inr (js_splice1 parsed1 (rowIndex cell))
                  else inr parsed1
              end
          end
      end
  end.

Definition apply_change (lix : Lix) (parsed : Data) (c : ChangeWithSnapshot)
  : JsError + Data :=
  match value c with
  | Some cell => inr (apply_value parsed cell)
  | None => apply_deletion lix parsed c
  end.

Fixpoint apply_loop (lix : Lix) (parsed : Data) (changes : list ChangeWithSnapshot)
  : JsError + Data :=
  match changes with
  | [] => inr parsed
  | c :: rest =>
      match apply_change lix parsed c with
      | inl e => inl e
      | inr parsed1 => apply_loop lix parsed1 rest
      end
  end.

Definition applyChanges (lix : Lix) (file : LixFile) (changes : list ChangeWithSnapshot)
  : JsError + string :=
  match apply_loop lix (parse_data (data file)) changes with
  | inl e => inl e
  | inr parsed => unparse parsed (parse_meta (data file))
  end.

Definition row_length (row : option (JsArray string)) : nat :=
  match row with Some r => List.length r | None => 0 end.

Definition row_text (row : option (JsArray string)) (j : nat) : option string :=
  match row with Some r => js_get r j | None => None end.

(** The body of the inner loop of [detectChanges]. *)
Definition detect_cell (i j : nat) (beforeRow afterRow : option (JsArray string))
  : list DetectedChange :=
  let beforeText := row_text beforeRow j in
  let afterText := row_text afterRow j in
  if strict_neq beforeText afterText
  then [{| type := "cell";
           entity_id := (string_of_nat i ++ "-" ++ string_of_nat j)%string;
           snapshot :=
             match afterText with
             | Some t =>
                 if (t =? "")%string then None
                 else Some {| rowIndex := i; columnIndex := j; text := t |}
             | None => None
             end |}]
  else [].

Definition detect_row (i : nat) (beforeParsed : option Data) (afterParsed : Data)
  : list DetectedChange :=
  let beforeRow := match beforeParsed with Some d => js_get d i | None => None end in
  let afterRow := js_get afterParsed i in
  let numColumns := Nat.max (row_length beforeRow) (row_length afterRow) in
  flat_map (fun j => detect_cell i j beforeRow afterRow) (seq 0 numColumns).

Definition detectChanges (before after : option LixFile) : list DetectedChange :=
  let beforeParsed := option_map (fun f => parse_data (data f)) before in
  let afterParsed := option_map (fun f => parse_data (data f)) after in
  let numRows :=
    Nat.max (match beforeParsed with Some d => List.length d | None => 0 end)
            (match afterParsed with Some d => List.length d | None => 0 end) in
  match afterParsed with
  | Some d => flat_map (fun i => detect_row i beforeParsed d) (seq 0 numRows)
  | None => []
  end.


Lemma apply_loop_app lix changes1 : forall parsed changes2,
  apply_loop lix parsed (changes1 ++ changes2) =
  match apply_loop lix parsed changes1 with
  | inl e => inl e
  | inr parsed1 => apply_loop lix parsed1 changes2
  end.
Proof.
  induction changes1 as [|c rest IH]; intros parsed changes2; simpl; [reflexivity |].
  destruct (apply_change lix parsed c); [reflexivity | apply IH].
Qed.

Lemma apply_change_missing_parent lix parsed c :
  value c = None -> getParentChange lix c = None ->
  apply_change lix parsed c = inl expected_previous_change.
Proof.
  intros Hv Hp. unfold apply_change, apply_deletion. now rewrite Hv, Hp.
Qed.

(** C8: when the changes handed to [applyChanges] hold a deletion (a change
    without value) whose entity has no previous change, [applyChanges]
    throws and returns no file; the error is the one that names the missing
    previous change unless an earlier change of the list already threw. *)
Theorem deletion_without_parent_is_fatal lix file before c after :
  value c = None -> getParentChange lix c = None ->
  (exists e, applyChanges lix file (before ++ c :: after) = inl e) /\
  (forall parsed,
     apply_loop lix (parse_data (data file)) before = inr parsed ->
     applyChanges lix file (before ++ c :: after) = inl expected_previous_change).
Proof.
  intros Hv Hp. unfold applyChanges. rewrite apply_loop_app.
  destruct (apply_loop lix (parse_data (data file)) before) as [e|parsed] eqn:E.
  - split; [now exists e | intros parsed H; discriminate].
  - cbn [apply_loop]. rewrite (apply_change_missing_parent _ _ _ Hv Hp).
    split; [now eexists | reflexivity].
Qed.

Lemma js_get_Some_lt {A} (a : JsArray A) i x : js_get a i = Some x -> i < List.length a.
Proof.
  unfold js_get. intros H. apply nth_error_Some. intros Hn. now rewrite Hn in H.
Qed.

Lemma js_get_ge {A} (a : JsArray A) i : List.length a <= i -> js_get a i = None.
Proof.
  intros H. unfold js_get. now rewrite (proj2 (nth_error_None a i) H).
Qed.

Lemma in_detect_row i j beforeParsed afterParsed c :
  j < Nat.max (row_length (match beforeParsed with Some d => js_get d i | None => None end))
              (row_length (js_get afterParsed i)) ->
  In c (detect_cell i j (match beforeParsed with Some d => js_get d i | None => None end)
                    (js_get afterParsed i)) ->
  In c (detect_row i beforeParsed afterParsed).
Proof.
  intros Hj Hc. unfold detect_row. cbv zeta. apply in_flat_map. exists j.
  split; [| exact Hc]. apply in_seq. split; [lia | exact Hj].
Qed.

Lemma detect_cell_falsy i j beforeRow afterRow t :
  row_text beforeRow j = Some t -> t <> ""%string ->
  row_text afterRow j = Some ""%string \/ row_text afterRow j = None ->
  detect_cell i j beforeRow afterRow =
  [{| type := "cell";
      entity_id := (string_of_nat i ++ "-" ++ string_of_nat j)%string;
      snapshot := None |}].
Proof.
  intros Hb Ht Ha. unfold detect_cell. rewrite Hb.
  destruct Ha as [-> | ->]; cbn [strict_neq]; [| reflexivity].
  destruct (String.eqb_spec t "") as [|_]; [contradiction | reflexivity].
Qed.

Lemma detect_cell_snapshot_text i j beforeRow afterRow c cell :
  In c (detect_cell i j beforeRow afterRow) -> snapshot c = Some cell ->
  text cell <> ""%string.
Proof.
  unfold detect_cell. destruct (strict_neq _ _); [| intros []].
  intros [<-|[]]. cbn [snapshot].
  destruct (row_text afterRow j) as [t|]; [| discriminate].
  destruct (String.eqb_spec t "") as [|Hne]; [discriminate |].
  intros H. injection H as <-. exact Hne.
Qed.

(** C10: a cell that goes from a non-empty text to the empty text is
    reported by [detectChanges] with no snapshot, the same record a cell
    that is gone is reported with; no record ever carries a snapshot whose
    text is empty. *)
Theorem edit_to_empty_is_reported_as_deletion before after i j t beforeRow afterRow :
  js_get (parse_data (data before)) i = Some beforeRow ->
  js_get beforeRow j = Some t -> t <> ""%string ->
  js_get (parse_data (data after)) i = Some afterRow ->
  js_get afterRow j = Some ""%string ->
  let deleted := {| type := "cell";
                    entity_id := (string_of_nat i ++ "-" ++ string_of_nat j)%string;
                    snapshot := None |} in
  In deleted (detectChanges (Some before) (Some after)) /\
  (forall gone,
     row_text (js_get (parse_data (data gone)) i) j = None ->
     In deleted (detectChanges (Some before) (Some gone))) /\
  (forall c cell,
     In c (detectChanges (Some before) (Some after)) ->
     snapshot c = Some cell -> text cell <> ""%string).
Proof.
  intros Hbrow Hbt Ht Harow Hat deleted.
  assert (Hi : i < List.length (parse_data (data before)))
    by (eapply js_get_Some_lt; eassumption).
  assert (Hj : j < List.length beforeRow) by (eapply js_get_Some_lt; eassumption).
  assert (Hin : forall f,
             row_text (js_get (parse_data (data f)) i) j = Some ""%string \/
             row_text (js_get (parse_data (data f)) i) j = None ->
             In deleted (detectChanges (Some before) (Some f))).
  { intros f Hf. unfold detectChanges. cbn [option_map].
    apply in_flat_map. exists i. split; [apply in_seq; lia |].
    apply (in_detect_row i j (Some (parse_data (data before)))).
    - rewrite Hbrow. cbn [row_length]. lia.
    - rewrite (detect_cell_falsy i j _ _ t); [now left | now rewrite Hbrow | assumption |].
      exact Hf. }
  split; [| split].
  - apply Hin. left. now rewrite Harow.
  - intros gone Hgone. apply Hin. now right.
  - intros c cell Hc Hs. unfold detectChanges in Hc. cbn [option_map] in Hc.
    apply in_flat_map in Hc. destruct Hc as (i' & _ & Hc).
    unfold detect_row in Hc. apply in_flat_map in Hc. destruct Hc as (j' & _ & Hc).
    eapply detect_cell_snapshot_text; eassumption.
Qed.

(** *** Reads and writes of JavaScript arrays *)

Lemma js_get_nth {A} (a : JsArray A) i x :
  js_get a i = Some x <-> nth_error a i = Some (Some x).
Proof.
  unfold js_get. destruct (nth_error a i) as [[y|]|]; split; congruence.
Qed.

Lemma js_get_set_same {A} (a : JsArray A) : forall i v, js_get (js_set a i v) i = Some v.
Proof.
  induction a as [|x a IH]; intros i v.
  - induction i as [|i IHi]; [reflexivity | exact IHi].
  - destruct i as [|i]; [reflexivity | apply IH].
Qed.

Lemma js_get_set_other {A} (a : JsArray A) : forall i j v,
  i <> j -> js_get (js_set a i v) j = js_get a j.
Proof.
  induction a as [|x a IH]; intros i j v Hne.
  - revert j Hne. induction i as [|i IHi]; intros [|j] Hne; try reflexivity.
    + now elim Hne.
    + unfold js_get. now destruct j.
    + unfold js_get in *. cbn. specialize (IHi j). cbn in IHi.
      rewrite IHi by congruence. now destruct j.
  - destruct i as [|i], j as [|j]; try reflexivity.
    + now elim Hne.
    + unfold js_get in *. cbn. apply (IH i j v). congruence.
Qed.

Lemma js_set_length {A} (a : JsArray A) : forall i v,
  List.length (js_set a i v) = Nat.max (List.length a) (S i).
Proof.
  induction a as [|x a IH]; intros i v.
  - induction i as [|i IHi]; [reflexivity |].
    cbn [js_set List.length] in *. rewrite IHi. lia.
  - destruct i as [|i]; cbn [js_set List.length]; [lia | rewrite IH; lia].
Qed.

Lemma js_set_same {A} (a : JsArray A) : forall i v,
  js_get a i = Some v -> js_set a i v = a.
Proof.
  induction a as [|x a IH]; intros i v H.
  - destruct i; discriminate.
  - destruct i as [|i]; cbn in *.
    + unfold js_get in H. cbn in H. now subst.
    + f_equal. apply IH. exact H.
Qed.

(** The loop of [applyChanges] that fills the cells to the left of the
    cell it writes. *)
Definition pad_cell (r : JsArray string) (i : nat) : JsArray string :=
  match js_get r i with
  | Some t => if (t =? "")%string then js_set r i ""%string else r
  | None => js_set r i ""%string
  end.

Definition pad_row (columnIndex : nat) (row : JsArray string) : JsArray string :=
  fold_left pad_cell (seq 0 columnIndex) row.

Definition text_or_empty (t : option string) : string :=
  match t with Some s => s | None => ""%string end.

Lemma pad_cell_get r i j :
  js_get (pad_cell r i) j =
  if j =? i then Some (text_or_empty (js_get r i)) else js_get r j.
Proof.
  unfold pad_cell. destruct (Nat.eqb_spec j i) as [->|Hne].
  - destruct (js_get r i) as [t|] eqn:E; [| apply js_get_set_same].
    destruct (String.eqb_spec t "") as [->|_]; [apply js_get_set_same | exact E].
  - destruct (js_get r i) as [t|]; [| apply js_get_set_other; congruence].
    destruct (t =? "")%string; [apply js_get_set_other; congruence | reflexivity].
Qed.

Lemma pad_row_get c : forall row j,
  js_get (pad_row c row) j =
  if j <? c then Some (text_or_empty (js_get row j)) else js_get row j.
Proof.
  unfold pad_row. induction c as [|c IH]; intros row j; [reflexivity |].
  rewrite seq_S, fold_left_app. cbn [fold_left Nat.add].
  rewrite pad_cell_get, !IH, Nat.ltb_irrefl.
  destruct (Nat.eqb_spec j c) as [->|Hne].
  - now rewrite (proj2 (Nat.ltb_lt c (S c))) by lia.
  - destruct (Nat.ltb_spec j c), (Nat.ltb_spec j (S c)); try lia; reflexivity.
Qed.

(** The text of a cell of the parsed data. *)
Definition cell_at (parsed : Data) (i j : nat) : option string :=
  row_text (js_get parsed i) j.

Lemma apply_value_row parsed cell :
  js_get (apply_value parsed cell) (rowIndex cell) =
  Some (js_set (pad_row (columnIndex cell)
                        (match js_get parsed (rowIndex cell) with
                         | Some r => r
                         | None => []
                         end))
               (columnIndex cell) (text cell)).
Proof.
  unfold apply_value. rewrite js_get_set_same. do 2 f_equal.
  destruct (js_get parsed (rowIndex cell)) as [r|] eqn:E.
  - now rewrite E.
  - now rewrite js_get_set_same.
Qed.

Lemma apply_value_other_row parsed cell i :
  i <> rowIndex cell -> js_get (apply_value parsed cell) i = js_get parsed i.
Proof.
  intros Hne. unfold apply_value. rewrite js_get_set_other by congruence.
  destruct (js_get parsed (rowIndex cell)); [reflexivity |].
  apply js_get_set_other. congruence.
Qed.

Lemma apply_value_cell_at parsed cell i j :
  cell_at (apply_value parsed cell) i j =
  if i =? rowIndex cell then
    if j =? columnIndex cell then Some (text cell)
    else if j <? columnIndex cell then Some (text_or_empty (cell_at parsed i j))
    else cell_at parsed i j
  else cell_at parsed i j.
Proof.
  unfold cell_at. destruct (Nat.eqb_spec i (rowIndex cell)) as [->|Hne].
  - rewrite apply_value_row. cbn [row_text].
    destruct (Nat.eqb_spec j (columnIndex cell)) as [->|Hj].
    + apply js_get_set_same.
    + rewrite js_get_set_other by congruence. rewrite pad_row_get.
      destruct (js_get parsed (rowIndex cell)) as [r|]; cbn [row_text]; [reflexivity |].
      destruct (j <? columnIndex cell); [| now destruct j].
      now destruct j.
  - now rewrite apply_value_other_row.
Qed.

(** X4: the branch of [applyChanges] for a change with a value writes the
    text at the cell of the change; in the row of the cell every cell to
    its left keeps its text, or becomes the empty text when it was
    missing, and every cell to its right is as before; the other rows are
    as before, and the data has grown to hold the row. *)
Theorem apply_value_cells (parsed : Data) (cell : Cell) :
  (forall i j,
     cell_at (apply_value parsed cell) i j =
     if i =? rowIndex cell then
       if j =? columnIndex cell then Some (text cell)
       else if j <? columnIndex cell then Some (text_or_empty (cell_at parsed i j))
       else cell_at parsed i j
     else cell_at parsed i j) /\
  (forall i, i <> rowIndex cell -> js_get (apply_value parsed cell) i = js_get parsed i) /\
  List.length (apply_value parsed cell) = Nat.max (List.length parsed) (S (rowIndex cell)).
Proof.
  split; [| split].
  - apply apply_value_cell_at.
  - intros i Hne. now apply apply_value_other_row.
  - unfold apply_value. rewrite js_set_length.
    destruct (js_get parsed (rowIndex cell)) as [r|] eqn:E.
    + apply js_get_Some_lt in E. lia.
    + rewrite js_set_length. lia.
Qed.

(** *** What [detectChanges] reports *)

Definition entity_of (i j : nat) : string :=
  (string_of_nat i ++ "-" ++ string_of_nat j)%string.

(** The record pushed for the cell at row [i], column [j]. *)
Definition detected_record (i j : nat) (afterText : option string) : DetectedChange :=
  {| type := "cell";
     entity_id := entity_of i j;
     snapshot :=
       match afterText with
       | Some t =>
           if (t =? "")%string then None
           else Some {| rowIndex := i; columnIndex := j; text := t |}
       | None => None
       end |}.

Definition before_cell (before : option LixFile) (i j : nat) : option string :=
  match before with
  | Some b => cell_at (parse_data (data b)) i j
  | None => None
  end.

Lemma strict_neq_true a b : strict_neq a b = true <-> a <> b.
Proof.
  destruct a as [x|], b as [y|]; simpl.
  - split; intros H.
    + intros Heq. injection Heq as ->. rewrite String.eqb_refl in H. discriminate.
    + destruct (String.eqb_spec x y); [congruence | reflexivity].
  - split; [intros _ H; discriminate | reflexivity].
  - split; [intros _ H; discriminate | reflexivity].
  - split; [discriminate | intros H; now elim H].
Qed.

Lemma detect_cell_spec i j beforeRow afterRow :
  detect_cell i j beforeRow afterRow =
  if strict_neq (row_text beforeRow j) (row_text afterRow j)
  then [detected_record i j (row_text afterRow j)] else [].
Proof. reflexivity. Qed.

Lemma row_text_Some_lt row j t : row_text row j = Some t -> j < row_length row.
Proof.
  destruct row as [r|]; [| discriminate]. apply js_get_Some_lt.
Qed.

Lemma cell_at_Some_lt parsed i j t : cell_at parsed i j = Some t -> i < List.length parsed.
Proof.
  unfold cell_at. destruct (js_get parsed i) as [r|] eqn:E; [| discriminate].
  intros _. now apply js_get_Some_lt in E.
Qed.

Lemma in_detectChanges (before : option LixFile) (after : LixFile) (d : DetectedChange) :
  In d (detectChanges before (Some after)) <->
  exists i j,
    before_cell before i j <> cell_at (parse_data (data after)) i j /\
    d = detected_record i j (cell_at (parse_data (data after)) i j).
Proof.
  unfold detectChanges. cbn [option_map]. rewrite in_flat_map. split.
  - intros (i & _ & Hd). unfold detect_row in Hd. apply in_flat_map in Hd.
    destruct Hd as (j & _ & Hd). rewrite detect_cell_spec in Hd.
    destruct (strict_neq _ _) eqn:E; [| destruct Hd]. destruct Hd as [<-|[]].
    exists i, j. split; [| reflexivity].
    apply strict_neq_true in E. unfold before_cell, cell_at.
    now destruct before.
  - intros (i & j & Hne & ->).
    set (A := parse_data (data after)) in *.
    set (beforeParsed := option_map (fun f => parse_data (data f)) before).
    assert (Hcell : before_cell before i j =
                    row_text (match beforeParsed with
                              | Some p => js_get p i
                              | None => None
                              end) j) by now destruct before.
    exists i. split.
    + apply in_seq. split; [lia |]. cbn [Nat.add].
      destruct (cell_at A i j) as [t|] eqn:EA.
      * apply cell_at_Some_lt in EA. lia.
      * destruct before as [b|]; [| now elim Hne]. cbn [before_cell] in Hne.
        destruct (cell_at (parse_data (data b)) i j) as [t|] eqn:EB; [| now elim Hne].
        apply cell_at_Some_lt in EB. cbn [beforeParsed option_map]. lia.
    + unfold detect_row. cbv zeta. apply in_flat_map. exists j. split.
      * apply in_seq. split; [lia |]. cbn [Nat.add].
        destruct (cell_at A i j) as [t|] eqn:EA.
        -- apply row_text_Some_lt in EA. lia.
        -- rewrite Hcell in Hne.
           destruct (row_text _ j) as [t|] eqn:EB in Hne; [| now elim Hne].
           apply row_text_Some_lt in EB. lia.
      * rewrite detect_cell_spec. fold beforeParsed.
        replace (strict_neq _ _) with true; [now left |].
        symmetry. apply strict_neq_true. now rewrite <- Hcell.
Qed.

(** X1: with an after file, [detectChanges] reports a record exactly for
    the cells whose text differs between the before file (no cell at all
    when it is absent) and the after file, and the record of a cell is the
    one of [detected_record]: its position as entity id, and a snapshot of
    position and new text unless the new text is missing or empty. *)
Theorem detectChanges_reports_differing_cells (before : option LixFile) (after : LixFile)
  (d : DetectedChange) :
  In d (detectChanges before (Some after)) <->
  exists i j,
    before_cell before i j <> cell_at (parse_data (data after)) i j /\
    d = detected_record i j (cell_at (parse_data (data after)) i j).
Proof. apply in_detectChanges. Qed.

(** X2: [detectChanges] reports nothing when there is no after file, and
    nothing when the after file parses to the rows of the before file. *)
Theorem detectChanges_nothing_to_report (before : option LixFile) (b after : LixFile) :
  parse_data (data b) = parse_data (data after) ->
  detectChanges before None = [] /\ detectChanges (Some b) (Some after) = [].
Proof.
  intros Hsame. split; [reflexivity |].
  destruct (detectChanges (Some b) (Some after)) as [|d l] eqn:E; [reflexivity |].
  assert (Hin : In d (detectChanges (Some b) (Some after))) by (rewrite E; now left).
  apply in_detectChanges in Hin.
  destruct Hin as (i & j & Hne & _). cbn [before_cell] in Hne.
  rewrite Hsame in Hne. now elim Hne.
Qed.

(** *** Entity ids *)

Fixpoint no_dash (s : string) : bool :=
  match s with
  | EmptyString => true
  | String c rest => negb (Ascii.eqb c "-") && no_dash rest
  end.

Lemma no_dash_digits d : no_dash (NilEmpty.string_of_uint d) = true.
Proof. induction d; simpl; auto. Qed.

Lemma no_dash_string_of_nat n : no_dash (string_of_nat n) = true.
Proof.
  unfold string_of_nat, NilZero.string_of_uint.
  destruct (Nat.to_uint n); try reflexivity; apply (no_dash_digits (_ _)).
Qed.

Lemma string_of_nat_inj n m : string_of_nat n = string_of_nat m -> n = m.
Proof.
  intros H.
  assert (Hdec : forall k,
             option_map Nat.of_uint (NilEmpty.uint_of_string (string_of_nat k)) = Some k).
  { intros k. unfold string_of_nat, NilZero.string_of_uint.
    destruct (Nat.to_uint k) eqn:E;
      try (rewrite NilEmpty.usu, <- E; cbn [option_map]; f_equal;
           apply DecimalNat.Unsigned.of_to).
    cbn. f_equal. rewrite <- (DecimalNat.Unsigned.of_to k), E. reflexivity. }
  assert (Hn := Hdec n). rewrite H, Hdec in Hn. now injection Hn.
Qed.

Lemma split_at_dash s1 : forall s2 t1 t2,
  no_dash s1 = true -> no_dash s2 = true ->
  (s1 ++ String "-" t1 = s2 ++ String "-" t2)%string -> s1 = s2 /\ t1 = t2.
Proof.
  induction s1 as [|c s1 IH]; intros [|c' s2] t1 t2 H1 H2 H; simpl in *.
  - injection H as ->. now split.
  - injection H as <- _. apply andb_prop in H2. destruct H2 as [H2 _].
    rewrite Ascii.eqb_refl in H2. discriminate.
  - injection H as -> _. apply andb_prop in H1. destruct H1 as [H1 _].
    rewrite Ascii.eqb_refl in H1. discriminate.
  - injection H as -> H. apply andb_prop in H1, H2.
    destruct (IH s2 t1 t2 (proj2 H1) (proj2 H2) H) as [-> ->]. now split.
Qed.

Lemma entity_of_inj i j i' j' : entity_of i j = entity_of i' j' -> i = i' /\ j = j'.
Proof.
  unfold entity_of. intros H. apply split_at_dash in H; try apply no_dash_string_of_nat.
  destruct H as [Hi Hj]. split; now apply string_of_nat_inj.
Qed.

Lemma NoDup_flat_map_keys {A B K} (key : B -> K) (f : A -> list B) (l : list A) :
  NoDup l ->
  (forall x, In x l -> NoDup (map key (f x))) ->
  (forall x y u v, In x l -> In y l -> In u (f x) -> In v (f y) -> key u = key v -> x = y) ->
  NoDup (map key (flat_map f l)).
Proof.
  induction l as [|a l IH]; intros Hnd Hin Hsep; [constructor |].
  inversion Hnd as [|? ? Ha Hnd']; subst. cbn [flat_map]. rewrite map_app.
  apply NoDup_app.
  - apply Hin. now left.
  - apply IH; [exact Hnd' | |].
    + intros x Hx. apply Hin. now right.
    + intros x y u v Hx Hy. apply Hsep; now right.
  - intros k Hk1 Hk2. apply in_map_iff in Hk1, Hk2.
    destruct Hk1 as (u & <- & Hu), Hk2 as (v & Hkv & Hv).
    apply in_flat_map in Hv. destruct Hv as (y & Hy & Hv).
    assert (a = y)
      by (apply (Hsep a y u v); [now left | now right | exact Hu | exact Hv | now symmetry]).
    subst. contradiction.
Qed.

Lemma detect_cell_entity i j beforeRow afterRow d :
  In d (detect_cell i j beforeRow afterRow) -> entity_id d = entity_of i j.
Proof.
  rewrite detect_cell_spec. destruct (strict_neq _ _); [| intros []].
  now intros [<-|[]].
Qed.

(** X3: the records [detectChanges] reports have pairwise distinct entity
    ids: a cell is reported at most once, and two cells never share the id
    made of their row and column. *)
Theorem detectChanges_entity_ids_distinct (before after : option LixFile) :
  NoDup (map entity_id (detectChanges before after)).
Proof.
  unfold detectChanges. destruct (option_map _ after) as [afterParsed|]; [| constructor].
  apply NoDup_flat_map_keys.
  - apply seq_NoDup.
  - intros i _. unfold detect_row. cbv zeta. apply NoDup_flat_map_keys.
    + apply seq_NoDup.
    + intros j _. rewrite detect_cell_spec. destruct (strict_neq _ _); repeat constructor.
      intros [].
    + intros j j' u v _ _ Hu Hv Heq.
      apply detect_cell_entity in Hu, Hv. rewrite Hu, Hv in Heq.
      now apply entity_of_inj in Heq.
  - intros i i' u v _ _ Hu Hv Heq. unfold detect_row in Hu, Hv.
    apply in_flat_map in Hu, Hv. destruct Hu as (j & _ & Hu), Hv as (j' & _ & Hv).
    apply detect_cell_entity in Hu, Hv. rewrite Hu, Hv in Heq.
    now apply entity_of_inj in Heq.
Qed.

(** *** Applying what was detected *)

Lemma apply_loop_values lix changes : forall parsed,
  (forall c, In c changes -> value c <> None) ->
  apply_loop lix parsed changes =
  inr (fold_left (fun d c => match value c with
                             | Some cell => apply_value d cell
                             | None => d
                             end) changes parsed).
Proof.
  induction changes as [|c changes IH]; intros parsed Hval; [reflexivity |].
  cbn [apply_loop fold_left]. unfold apply_change.
  destruct (value c) as [cell|] eqn:E.
  - apply IH. intros c' Hc'. apply Hval. now right.
  - exfalso. apply (Hval c); [now left | exact E].
Qed.

(** Cells that agree with [target], and cells that a change of the list
    will write with the text [target] has there, agree with [target] once
    the list is applied. *)
Lemma fold_apply_value_agree (target : Data) changes : forall parsed,
  (forall c cell, In c changes -> value c = Some cell ->
     cell_at target (rowIndex cell) (columnIndex cell) = Some (text cell)) ->
  forall i j t,
    cell_at target i j = Some t ->
    cell_at parsed i j = Some t \/
    (exists c cell, In c changes /\ value c = Some cell /\
                    rowIndex cell = i /\ columnIndex cell = j) ->
    cell_at (fold_left (fun d c => match value c with
                                   | Some cell => apply_value d cell
                                   | None => d
                                   end) changes parsed) i j = Some t.
Proof.
  induction changes as [|c changes IH]; intros parsed Hagree i j t Ht Hcase.
  - destruct Hcase as [H|(c & cell & [] & _)]. exact H.
  - cbn [fold_left]. apply IH; [| exact Ht |].
    + intros c' cell Hc'. apply Hagree. now right.
    + destruct (value c) as [cell|] eqn:Ev.
      * assert (Hcell := Hagree c cell (or_introl eq_refl) Ev).
        destruct Hcase as [Hparsed|(c' & cell' & [<-|Hin] & Hv & Hi & Hj)].
        -- left. rewrite apply_value_cell_at.
           destruct (Nat.eqb_spec i (rowIndex cell)) as [->|_]; [| exact Hparsed].
           destruct (Nat.eqb_spec j (columnIndex cell)) as [->|_]; [congruence |].
           rewrite Hparsed. now destruct (j <? columnIndex cell).
        -- left. rewrite Ev in Hv. injection Hv as <-. subst i j.
           rewrite apply_value_cell_at, !Nat.eqb_refl. congruence.
        -- right. now exists c', cell'.
      * destruct Hcase as [Hparsed|(c' & cell' & [<-|Hin] & Hv & Hi & Hj)].
        -- now left.
        -- congruence.
        -- right. now exists c', cell'.
Qed.

Lemma detected_snapshot_cell i j afterText cell :
  snapshot (detected_record i j afterText) = Some cell ->
  rowIndex cell = i /\ columnIndex cell = j /\ afterText = Some (text cell).
Proof.
  cbn [snapshot detected_record]. destruct afterText as [t|]; [| discriminate].
  destruct (t =? "")%string; [discriminate |]. intros H. injection H as <-. now cbn.
Qed.

(** Rows without a hole. *)
Definition no_hole_row (d : Data) : Prop :=
  forall i, i < List.length d -> js_get d i <> None.

Definition apply_snapshot (d : Data) (v : option Cell) : Data :=
  match v with
  | Some cell => apply_value d cell
  | None => d
  end.

Lemma fold_apply_snapshot changes : forall parsed,
  fold_left (fun d c => match value c with
                        | Some cell => apply_value d cell
                        | None => d
                        end) changes parsed =
  fold_left apply_snapshot (map value changes) parsed.
Proof.
  induction changes as [|c changes IH]; intros parsed; [reflexivity |]. apply IH.
Qed.

Lemma apply_value_length parsed cell :
  List.length (apply_value parsed cell) = Nat.max (List.length parsed) (S (rowIndex cell)).
Proof.
  unfold apply_value. rewrite js_set_length.
  destruct (js_get parsed (rowIndex cell)); [reflexivity |]. rewrite js_set_length. lia.
Qed.

Lemma apply_value_no_hole_row parsed cell :
  no_hole_row parsed -> rowIndex cell <= List.length parsed ->
  no_hole_row (apply_value parsed cell).
Proof.
  intros Hd Hr i Hi. rewrite apply_value_length in Hi.
  destruct (Nat.eq_dec i (rowIndex cell)) as [->|Hne].
  - now rewrite apply_value_row.
  - rewrite apply_value_other_row by exact Hne. apply Hd. lia.
Qed.

(** Cells written into rows that exist or into the row right after the
    last one leave no hole. *)
Lemma fold_apply_snapshot_no_hole_row vs : forall cur,
  (forall cell, In (Some cell) vs -> rowIndex cell <= List.length cur) ->
  no_hole_row cur ->
  no_hole_row (fold_left apply_snapshot vs cur) /\
  List.length cur <= List.length (fold_left apply_snapshot vs cur) /\
  (forall cell, In (Some cell) vs ->
     rowIndex cell < List.length (fold_left apply_snapshot vs cur)).
Proof.
  induction vs as [|v vs IH]; intros cur Hrow Hd.
  - refine (conj Hd (conj (Nat.le_refl _) _)). intros cell [].
  - cbn [fold_left]. destruct v as [cell|]; cbn [apply_snapshot].
    + assert (Hlen := apply_value_length cur cell).
      destruct (IH (apply_value cur cell)) as (Hd' & Hle & Hin).
      * intros cell' Hc'. specialize (Hrow cell' (or_intror Hc')). lia.
      * apply apply_value_no_hole_row; [exact Hd | apply Hrow; now left].
      * refine (conj Hd' (conj _ _)); [lia |].
        intros cell' [Heq|Hc']; [| now apply Hin]. injection Heq as <-. lia.
    + destruct (IH cur) as (Hd' & Hle & Hin).
      * intros cell' Hc'. apply Hrow. now right.
      * exact Hd.
      * refine (conj Hd' (conj Hle _)).
        intros cell' [Heq|Hc']; [discriminate | now apply Hin].
Qed.

(** Rows written one after the other, each new row with a cell. *)
Lemma fold_rows_no_hole_row (rowsf : nat -> list (option Cell)) (rowsA : nat) (start : Data) :
  no_hole_row start ->
  (forall i cell, In (Some cell) (rowsf i) -> rowIndex cell = i /\ i < rowsA) ->
  (forall i, List.length start <= i -> i < rowsA -> exists cell, In (Some cell) (rowsf i)) ->
  forall n,
    no_hole_row (fold_left apply_snapshot (flat_map rowsf (seq 0 n)) start) /\
    List.length start <= List.length (fold_left apply_snapshot (flat_map rowsf (seq 0 n)) start) /\
    Nat.min n rowsA <= List.length (fold_left apply_snapshot (flat_map rowsf (seq 0 n)) start).
Proof.
  intros Hd Hcells Hnew. induction n as [|n IH].
  - refine (conj Hd (conj (Nat.le_refl _) _)). cbn. lia.
  - rewrite seq_S, flat_map_app, fold_left_app. cbn [flat_map Nat.add]. rewrite app_nil_r.
    destruct IH as (Hdn & Hstart & Hmin).
    set (cur := fold_left apply_snapshot (flat_map rowsf (seq 0 n)) start) in *.
    destruct (fold_apply_snapshot_no_hole_row (rowsf n) cur) as (Hd' & Hle & Hin).
    + intros cell Hc. destruct (Hcells n cell Hc) as [-> Hlt]. lia.
    + exact Hdn.
    + refine (conj Hd' (conj _ _)); [lia |].
      destruct (Nat.lt_ge_cases n (List.length cur)) as [Hn|Hn]; [lia |].
      destruct (Nat.lt_ge_cases n rowsA) as [HA|HA]; [| lia].
      destruct (Hnew n) as [cell Hc]; [lia | exact HA |].
      assert (Hlt := Hin cell Hc). destruct (Hcells n cell Hc) as [Hrow _]. lia.
Qed.

Lemma map_flat_map {A B C} (f : B -> C) (g : A -> list B) (l : list A) :
  map f (flat_map g l) = flat_map (fun x => map f (g x)) l.
Proof.
  induction l as [|x l IH]; [reflexivity |]. cbn [flat_map]. now rewrite map_app, IH.
Qed.

Lemma in_detect_row_snapshot i beforeParsed afterParsed cell :
  In (Some cell) (map snapshot (detect_row i beforeParsed afterParsed)) ->
  rowIndex cell = i /\ i < List.length afterParsed.
Proof.
  intros H. apply in_map_iff in H. destruct H as (d & Hs & Hd).
  unfold detect_row in Hd. apply in_flat_map in Hd. destruct Hd as (j & _ & Hd).
  rewrite detect_cell_spec in Hd. destruct (strict_neq _ _); [| destruct Hd].
  destruct Hd as [<-|[]]. apply detected_snapshot_cell in Hs.
  destruct Hs as (Hi & _ & Ht). split; [exact Hi |].
  destruct (js_get afterParsed i) as [row|] eqn:E; [| discriminate].
  now apply js_get_Some_lt in E.
Qed.

(** X5: when the changes detected between a before file and an after file
    hold no deletion, the loop of [applyChanges] applied to the before
    file with changes that carry the detected snapshots, in their order,
    does not throw; [applyChanges] returns, or throws, what [unparse]
    does on the rows the loop leaves, and these rows hold every cell of
    the after file with the text it has there.  They have no hole when
    the rows parsed from the before file have none and every row parsed
    from the after file has a cell. *)
Theorem applyChanges_of_detected lix (before after : LixFile)
  (changes : list ChangeWithSnapshot) :
  map value changes = map snapshot (detectChanges (Some before) (Some after)) ->
  (forall d, In d (detectChanges (Some before) (Some after)) -> snapshot d <> None) ->
  exists parsed,
    apply_loop lix (parse_data (data before)) changes = inr parsed /\
    applyChanges lix before changes = unparse parsed (parse_meta (data before)) /\
    (forall i j t,
       cell_at (parse_data (data after)) i j = Some t -> cell_at parsed i j = Some t) /\
    (no_hole_row (parse_data (data before)) ->
     (forall i, i < List.length (parse_data (data after)) ->
        exists row j t, js_get (parse_data (data after)) i = Some row /\
                        js_get row j = Some t) ->
     no_hole_row parsed).
Proof.
  intros Hmap Hnodel.
  set (detected := detectChanges (Some before) (Some after)) in *.
  set (A := parse_data (data after)).
  set (B := parse_data (data before)).
  assert (Hto : forall c, In c changes -> exists d, In d detected /\ snapshot d = value c).
  { intros c Hc. apply (in_map value) in Hc. rewrite Hmap in Hc.
    apply in_map_iff in Hc. destruct Hc as (d & Hd & Hin). now exists d. }
  assert (Hfrom : forall d, In d detected -> exists c, In c changes /\ value c = snapshot d).
  { intros d Hd. apply (in_map snapshot) in Hd. rewrite <- Hmap in Hd.
    apply in_map_iff in Hd. destruct Hd as (c & Hc & Hin). now exists c. }
  assert (Hloop : apply_loop lix B changes =
                  inr (fold_left (fun d c => match value c with
                                             | Some cell => apply_value d cell
                                             | None => d
                                             end) changes B)).
  { apply apply_loop_values.
    intros c Hc. destruct (Hto c Hc) as (d & Hd & <-). now apply Hnodel. }
  eexists. refine (conj Hloop (conj _ (conj _ _))).
  - unfold applyChanges. fold B. now rewrite Hloop.
  - intros i j t Ht. apply (fold_apply_value_agree A); [| exact Ht |].
    + intros c cell Hc Hv. destruct (Hto c Hc) as (d & Hd & Hs).
      apply in_detectChanges in Hd. destruct Hd as (i' & j' & _ & ->).
      rewrite Hv in Hs. apply detected_snapshot_cell in Hs.
      destruct Hs as (-> & -> & Hs). exact Hs.
    + destruct (cell_at B i j) as [t'|] eqn:Eb.
      * destruct (string_dec t' t) as [->|Hne]; [now left |]. right.
        assert (Hd : In (detected_record i j (Some t)) detected).
        { apply in_detectChanges. exists i, j. fold A. rewrite Ht. cbn [before_cell].
          fold B. split; [congruence | reflexivity]. }
        destruct (Hfrom _ Hd) as (c & Hc & Hv).
        assert (Hs := Hnodel _ Hd). cbn [snapshot detected_record] in Hs, Hv.
        destruct (t =? "")%string; [now elim Hs |].
        exists c. eexists. split; [exact Hc |]. split; [exact Hv |]. now cbn.
      * right.
        assert (Hd : In (detected_record i j (Some t)) detected).
        { apply in_detectChanges. exists i, j. fold A. rewrite Ht. cbn [before_cell].
          fold B. split; [congruence | reflexivity]. }
        destruct (Hfrom _ Hd) as (c & Hc & Hv).
        assert (Hs := Hnodel _ Hd). cbn [snapshot detected_record] in Hs, Hv.
        destruct (t =? "")%string; [now elim Hs |].
        exists c. eexists. split; [exact Hc |]. split; [exact Hv |]. now cbn.
  - intros HB HA. rewrite fold_apply_snapshot, Hmap.
    unfold detected, detectChanges. cbn [option_map]. fold A B. rewrite map_flat_map.
    apply (fold_rows_no_hole_row
             (fun i => map snapshot (detect_row i (Some B) A)) (List.length A) B HB).
    + intros i cell. apply in_detect_row_snapshot.
    + intros i HiB HiA. destruct (HA i HiA) as (row & j & t & Hrow & Ht).
      assert (Hd : In (detected_record i j (Some t)) detected).
      { assert (HcA : cell_at A i j = Some t) by (unfold cell_at; now rewrite Hrow).
        assert (HcB : before_cell (Some before) i j = None).
        { cbn [before_cell]. fold B. unfold cell_at. now rewrite (js_get_ge B i HiB). }
        apply in_detectChanges. exists i, j. fold A. rewrite HcA, HcB.
        split; [discriminate | reflexivity]. }
      assert (Hs := Hnodel _ Hd).
      destruct (snapshot (detected_record i j (Some t))) as [cell|] eqn:Es; [| now elim Hs].
      exists cell. apply in_map_iff. exists (detected_record i j (Some t)).
      split; [exact Es |].
      apply (in_detect_row i j (Some B) A).
      * rewrite Hrow. cbn [row_length]. apply js_get_Some_lt in Ht. lia.
      * rewrite detect_cell_spec, Hrow. cbn [row_text].
        rewrite (js_get_ge B i HiB), Ht. cbn [row_text strict_neq]. now left.
Qed.

(** *** Deletions, and applying a change twice *)

Lemma js_every_spec {A} (p : A -> bool) (a : JsArray A) :
  js_every p a = true <-> forall j x, js_get a j = Some x -> p x = true.
Proof.
  unfold js_every. rewrite forallb_forall. split.
  - intros H j x Hj. apply js_get_nth in Hj. apply nth_error_In in Hj.
    apply (H (Some x) Hj).
  - intros H [x|] Hin; [| reflexivity]. apply In_nth_error in Hin.
    destruct Hin as [j Hj]. apply (H j). now apply js_get_nth.
Qed.

Lemma js_get_splice1 {A} (a : JsArray A) : forall r i,
  js_get (js_splice1 a r) i = js_get a (if i <? r then i else S i).
Proof.
  unfold js_splice1, js_get.
  induction a as [|x a IH]; intros r i.
  - rewrite firstn_nil, skipn_nil. cbn [app].
    destruct (i <? r); now rewrite !nth_error_nil.
  - destruct r as [|r]; [reflexivity |]. destruct i as [|i]; [reflexivity |].
    cbn [firstn skipn app nth_error]. rewrite IH.
    change (S i <? S r) with (i <? r). now destruct (i <? r).
Qed.

Lemma js_splice1_length {A} (a : JsArray A) r :
  r < List.length a -> List.length (js_splice1 a r) = List.length a - 1.
Proof.
  intros Hr. unfold js_splice1. rewrite length_app, length_firstn, length_skipn. lia.
Qed.

Lemma js_set_at_length {A} (a : JsArray A) v : js_set a (List.length a) v = a ++ [Some v].
Proof. induction a as [|x a IH]; cbn; [reflexivity | now rewrite IH]. Qed.

Lemma js_set_last {A} (a : JsArray A) x v :
  js_set (a ++ [x]) (List.length a) v = a ++ [Some v].
Proof. induction a as [|y a IH]; cbn; [reflexivity | now rewrite IH]. Qed.

Lemma js_get_last {A} (a : JsArray A) x : js_get (a ++ [x]) (List.length a) = x.
Proof.
  unfold js_get. rewrite nth_error_app2, Nat.sub_diag by lia. now destruct x.
Qed.

Lemma js_splice1_last {A} (a : JsArray A) x : js_splice1 (a ++ [x]) (List.length a) = a.
Proof.
  unfold js_splice1. rewrite firstn_app, firstn_all, Nat.sub_diag. cbn [firstn].
  rewrite skipn_all2 by (rewrite length_app; cbn; lia). now rewrite !app_nil_r.
Qed.

Lemma apply_deletion_found lix parsed c parent stored cell row :
  getParentChange lix c = Some parent ->
  find (fun r => id r =? ChangeGraph.snapshot_id parent)%string (snapshot_table lix)
    = Some stored ->
  snapshot_value stored = Some cell ->
  js_get parsed (rowIndex cell) = Some row ->
  apply_deletion lix parsed c =
  if js_every (fun t => t =? "")%string (js_set row (columnIndex cell) ""%string)
  then inr (js_splice1 (js_set parsed (rowIndex cell)
                               (js_set row (columnIndex cell) ""%string))
                       (rowIndex cell))
  else inr (js_set parsed (rowIndex cell) (js_set row (columnIndex cell) ""%string)).
Proof.
  intros Hp Hs Hv Hr. unfold apply_deletion. now rewrite Hp, Hs, Hv, Hr.
Qed.

Lemma blanked_row_every (row : JsArray string) col :
  js_every (fun t => t =? "")%string (js_set row col ""%string) = true <->
  forall j t, j <> col -> js_get row j = Some t -> t = ""%string.
Proof.
  rewrite js_every_spec. split.
  - intros H j t Hj Ht. apply String.eqb_eq. apply (H j).
    now rewrite js_get_set_other by congruence.
  - intros H j t Ht. destruct (Nat.eq_dec j col) as [->|Hj].
    + rewrite js_get_set_same in Ht. injection Ht as <-. reflexivity.
    + rewrite js_get_set_other in Ht by congruence.
      rewrite (H j t Hj Ht). reflexivity.
Qed.

(** X7: a deletion whose parent change has a stored snapshot with a cell,
    in a row that exists, does not throw.  When another cell of the row
    has a text, the cell becomes the empty text and nothing else changes;
    when no other cell of the row has a text, the row is removed and the
    rows after it move up by one. *)
Theorem apply_deletion_effect lix parsed c parent stored cell row :
  getParentChange lix c = Some parent ->
  find (fun r => id r =? ChangeGraph.snapshot_id parent)%string (snapshot_table lix)
    = Some stored ->
  snapshot_value stored = Some cell ->
  js_get parsed (rowIndex cell) = Some row ->
  exists parsed',
    apply_deletion lix parsed c = inr parsed' /\
    ((exists j t, j <> columnIndex cell /\ js_get row j = Some t /\ t <> ""%string) ->
     List.length parsed' = List.length parsed /\
     forall i j,
       cell_at parsed' i j =
       if (i =? rowIndex cell) && (j =? columnIndex cell) then Some ""%string
       else cell_at parsed i j) /\
    ((forall j t, j <> columnIndex cell -> js_get row j = Some t -> t = ""%string) ->
     List.length parsed' = List.length parsed - 1 /\
     forall i, js_get parsed' i = js_get parsed (if i <? rowIndex cell then i else S i)).
Proof.
  intros Hp Hs Hv Hr.
  rewrite (apply_deletion_found lix parsed c parent stored cell row Hp Hs Hv Hr).
  assert (Hlt := js_get_Some_lt _ _ _ Hr).
  destruct (js_every _ _) eqn:E; eexists; (split; [reflexivity |]); split.
  - intros (j & t & Hj & Ht & Hne). exfalso. apply Hne.
    apply (proj1 (blanked_row_every row (columnIndex cell)) E j t Hj Ht).
  - intros _. split.
    + rewrite js_splice1_length; rewrite js_set_length; lia.
    + intros i. rewrite js_get_splice1. apply js_get_set_other.
      destruct (Nat.ltb_spec i (rowIndex cell)); lia.
  - intros _. split.
    + rewrite js_set_length. lia.
    + intros i j. unfold cell_at.
      destruct (Nat.eqb_spec i (rowIndex cell)) as [->|Hi]; cbn [andb].
      * rewrite js_get_set_same, Hr. cbn [row_text].
        destruct (Nat.eqb_spec j (columnIndex cell)) as [->|Hj].
        -- apply js_get_set_same.
        -- apply js_get_set_other. congruence.
      * now rewrite js_get_set_other by congruence.
  - intros Hall. apply blanked_row_every in Hall. congruence.
Qed.

(** X6: a change that writes a cell in a new row right after the last row,
    followed by the deletion whose parent's snapshot is that cell, gives
    back the rows there were. *)
Theorem write_new_row_then_delete lix parsed cell c parent stored :
  rowIndex cell = List.length parsed ->
  getParentChange lix c = Some parent ->
  find (fun r => id r =? ChangeGraph.snapshot_id parent)%string (snapshot_table lix)
    = Some stored ->
  snapshot_value stored = Some cell ->
  apply_deletion lix (apply_value parsed cell) c = inr parsed.
Proof.
  intros Hrow Hp Hs Hv.
  set (written := js_set (pad_row (columnIndex cell) []) (columnIndex cell) (text cell)).
  assert (Hwritten : apply_value parsed cell = parsed ++ [Some written]).
  { unfold apply_value. rewrite Hrow, (js_get_ge parsed) by lia.
    rewrite js_set_at_length, js_get_last, js_set_last. reflexivity. }
  rewrite (apply_deletion_found lix _ c parent stored cell written Hp Hs Hv)
    by (rewrite Hwritten, Hrow; apply js_get_last).
  rewrite Hwritten, Hrow, js_set_last, js_splice1_last.
  replace (js_every _ _) with true; [reflexivity |].
  symmetry. apply blanked_row_every. intros j t Hj Ht. unfold written in Ht.
  rewrite js_get_set_other, pad_row_get in Ht by congruence.
  destruct (j <? columnIndex cell).
  - injection Ht as <-. now destruct j.
  - destruct j; discriminate.
Qed.

Lemma pad_row_filled col : forall row,
  (forall j, j < col -> exists t, js_get row j = Some t) ->
  pad_row col row = row.
Proof.
  unfold pad_row. induction col as [|col IH]; intros row Hfilled; [reflexivity |].
  rewrite seq_S, fold_left_app, IH by (intros j Hj; apply Hfilled; lia).
  cbn [fold_left Nat.add]. unfold pad_cell.
  destruct (Hfilled col (Nat.lt_succ_diag_r col)) as [t Ht]. rewrite Ht.
  destruct (String.eqb_spec t "") as [->|_]; [now apply js_set_same | reflexivity].
Qed.

(** X12: applying the same change with a value a second time changes
    nothing. *)
Theorem apply_value_twice (parsed : Data) (cell : Cell) :
  apply_value (apply_value parsed cell) cell = apply_value parsed cell.
Proof.
  set (once := apply_value parsed cell).
  assert (Hrow := apply_value_row parsed cell). fold once in Hrow.
  set (written := js_set _ (columnIndex cell) (text cell)) in Hrow.
  change (apply_value once cell) with
    (js_set (match js_get once (rowIndex cell) with
             | None => js_set once (rowIndex cell) []
             | Some _ => once
             end)
            (rowIndex cell)
            (js_set (pad_row (columnIndex cell)
                       (match js_get (match js_get once (rowIndex cell) with
                                      | None => js_set once (rowIndex cell) []
                                      | Some _ => once
                                      end) (rowIndex cell) with
                        | Some r => r
                        | None => []
                        end))
                    (columnIndex cell) (text cell))).
  rewrite Hrow, Hrow, pad_row_filled.
  - rewrite (js_set_same written) by apply js_get_set_same.
    now apply js_set_same.
  - intros j Hj. unfold written. rewrite js_get_set_other, pad_row_get by lia.
    rewrite (proj2 (Nat.ltb_lt j (columnIndex cell)) Hj). eauto.
Qed.

(** *** Where [applyChanges] throws *)

Lemma apply_deletion_errors lix parsed c e :
  apply_deletion lix parsed c = inl e ->
  e = expected_previous_change \/ e = NoResultError \/ e = TypeError.
Proof.
  unfold apply_deletion. intros H.
  destruct (getParentChange lix c) as [parent|]; [| injection H as <-; now left].
  destruct (find _ _) as [stored|]; [| injection H as <-; right; now left].
  destruct (snapshot_value stored) as [cell|]; [| injection H as <-; right; now right].
  destruct (js_get parsed (rowIndex cell)) as [row|]; [| injection H as <-; right; now right].
  destruct (js_every _ _); discriminate.
Qed.

Lemma apply_loop_error lix changes : forall parsed e,
  apply_loop lix parsed changes = inl e ->
  exists before c after parsed',
    changes = before ++ c :: after /\ value c = None /\
    apply_loop lix parsed before = inr parsed' /\
    apply_deletion lix parsed' c = inl e.
Proof.
  induction changes as [|c rest IH]; intros parsed e H; [discriminate |].
  cbn [apply_loop] in H. unfold apply_change in H.
  destruct (value c) as [cell|] eqn:Hv.
  - destruct (IH _ _ H) as (before & c' & after & parsed' & -> & Hv' & Hloop & Hdel).
    exists (c :: before), c', after, parsed'. refine (conj eq_refl (conj Hv' (conj _ Hdel))).
    cbn [apply_loop]. unfold apply_change. now rewrite Hv.
  - destruct (apply_deletion lix parsed c) as [e'|parsed1] eqn:Hd.
    + injection H as <-. exists [], c, rest, parsed.
      exact (conj eq_refl (conj Hv (conj eq_refl Hd))).
    + destruct (IH _ _ H) as (before & c' & after & parsed' & -> & Hv' & Hloop & Hdel).
      exists (c :: before), c', after, parsed'. refine (conj eq_refl (conj Hv' (conj _ Hdel))).
      cbn [apply_loop]. unfold apply_change. now rewrite Hv, Hd.
Qed.

(** X13: where [applyChanges] throws.  Either every change was applied
    and [unparse] threw on the rows the loop left, or the list holds a
    change without value, a deletion, before which every change was
    applied, the error is the one that deletion raised on the rows reached
    so far, and it is the error naming the missing previous change, the
    error of a query without result, or a type error.  A change with a
    value never throws in the loop. *)
Theorem applyChanges_throws_in_unparse_or_at_a_deletion lix file changes e :
  applyChanges lix file changes = inl e ->
  (exists parsed,
     apply_loop lix (parse_data (data file)) changes = inr parsed /\
     unparse parsed (parse_meta (data file)) = inl e) \/
  (exists before c after parsed,
     changes = before ++ c :: after /\ value c = None /\
     apply_loop lix (parse_data (data file)) before = inr parsed /\
     apply_deletion lix parsed c = inl e /\
     (e = expected_previous_change \/ e = NoResultError \/ e = TypeError)).
Proof.
  unfold applyChanges. intros H.
  destruct (apply_loop lix (parse_data (data file)) changes) as [e'|parsed] eqn:E.
  - injection H as <-. right.
    destruct (apply_loop_error lix changes _ _ E)
      as (before & c & after & parsed & Hc & Hv & Hloop & Hdel).
    exists before, c, after, parsed.
    exact (conj Hc (conj Hv (conj Hloop (conj Hdel (apply_deletion_errors _ _ _ _ Hdel))))).
  - left. exists parsed. now split.
Qed.

(** *** The two directions of a comparison *)

Lemma strict_neq_sym a b : strict_neq a b = strict_neq b a.
Proof.
  destruct a as [x|], b as [y|]; cbn; try reflexivity. now rewrite String.eqb_sym.
Qed.

Lemma detect_cell_entity_sym i j r1 r2 :
  map entity_id (detect_cell i j r1 r2) = map entity_id (detect_cell i j r2 r1).
Proof.
  unfold detect_cell. cbv zeta. rewrite (strict_neq_sym (row_text r1 j)).
  now destruct (strict_neq _ _).
Qed.

(** X14: between two files that both exist, [detectChanges] reports the
    same entity ids, in the same order, whichever of the two is taken as
    the file before. *)
Theorem detectChanges_entities_symmetric (a b : LixFile) :
  map entity_id (detectChanges (Some a) (Some b)) =
  map entity_id (detectChanges (Some b) (Some a)).
Proof.
  unfold detectChanges. cbn [option_map]. rewrite !map_flat_map.
  rewrite (Nat.max_comm (List.length (parse_data (data a)))).
  apply flat_map_ext. intros i. unfold detect_row. cbv zeta. rewrite !map_flat_map.
  rewrite (Nat.max_comm (row_length (js_get (parse_data (data a)) i))).
  apply flat_map_ext. intros j. apply detect_cell_entity_sym.
Qed.

End Plugin.

(** A small stand-in for papaparse, for running the plugin: lines are
    split at line feeds and cells at commas; a row that is a hole makes
    [unparse] throw. *)
Fixpoint split_on (sep : ascii) (s : string) (acc : string) : list string :=
  match s with
  | EmptyString => [acc]
  | String c rest =>
      if Ascii.eqb c sep then acc :: split_on sep rest EmptyString
      else split_on sep rest (acc ++ String c EmptyString)%string
  end.

Definition simple_parse (text : string) : Data :=
  map (fun line => Some (map Some (split_on "," line EmptyString)))
      (split_on "010" text EmptyString).

Definition simple_unparse (rows : Data) (_ : unit) : JsError + string :=
  if existsb (fun row => match row with Some _ => false | None => true end) rows
  then inl TypeError
  else
    inr (String.concat (String "010" EmptyString)
           (map (fun row => match row with
                            | Some cells =>
                                String.concat ","
                                  (map (fun c => match c with
                                                 | Some t => t
                                                 | None => EmptyString
                                                 end) cells)
                            | None => EmptyString
                            end) rows)).

Definition file_ab : LixFile := {| file_id := "f"; path := "/t.csv"; data := "a,b" |}.

Definition file_a_empty : LixFile := {| file_id := "f"; path := "/t.csv"; data := "a," |}.

Definition file_a : LixFile := {| file_id := "f"; path := "/t.csv"; data := "a" |}.

Definition deletion : ChangeWithSnapshot :=
  {| change := ChangeGraph.mock_change "1"; value := None |}.

Definition set_cell (r c : nat) (t : string) : ChangeWithSnapshot :=
  {| change := ChangeGraph.mock_change "0";
     value := Some {| rowIndex := r; columnIndex := c; text := t |} |}.

Example detectChanges_edit_to_empty :
  detectChanges simple_parse (Some file_ab) (Some file_a_empty)
  = [{| type := "cell"; entity_id := "0-1"; snapshot := None |}] /\
  detectChanges simple_parse (Some file_ab) (Some file_a)
  = [{| type := "cell"; entity_id := "0-1"; snapshot := None |}].
Proof. split; reflexivity. Qed.

Example applyChanges_extends_rows :
  applyChanges unit simple_parse (fun _ => tt) simple_unparse unit (fun _ => [])
               (fun _ _ => None) tt file_ab [set_cell 1 2 "z"]
  = inr (String.concat (String "010" EmptyString) ["a,b"; ",,z"])%string.
Proof. reflexivity. Qed.

Example applyChanges_leaves_hole_rows :
  applyChanges unit simple_parse (fun _ => tt) simple_unparse unit (fun _ => [])
               (fun _ _ => None) tt file_ab [set_cell 3 0 "q"]
  = inl TypeError.
Proof. reflexivity. Qed.

Lemma deletion_without_parent_is_fatal_witness :
  value deletion = None /\
  (exists e,
     applyChanges unit simple_parse (fun _ => tt) simple_unparse unit (fun _ => [])
                  (fun _ _ => None) tt file_ab ([set_cell 0 0 "x"] ++ deletion :: [])
     = inl e) /\
  (forall parsed,
     apply_loop unit (fun _ => []) (fun _ _ => None) tt (simple_parse (data file_ab))
                [set_cell 0 0 "x"] = inr parsed ->
     applyChanges unit simple_parse (fun _ => tt) simple_unparse unit (fun _ => [])
                  (fun _ _ => None) tt file_ab ([set_cell 0 0 "x"] ++ deletion :: [])
     = inl expected_previous_change).
Proof.
  split; [reflexivity |].
  exact (deletion_without_parent_is_fatal unit simple_parse (fun _ => tt) simple_unparse
           unit (fun _ => []) (fun _ _ => None) tt file_ab [set_cell 0 0 "x"] deletion []
           eq_refl eq_refl).
Defined.

Lemma edit_to_empty_is_reported_as_deletion_witness :
  let deleted := {| type := "cell"; entity_id := "0-1"; snapshot := None |} in
  In deleted (detectChanges simple_parse (Some file_ab) (Some file_a_empty)) /\
  (forall gone,
     row_text (js_get (simple_parse (data gone)) 0) 1 = None ->
     In deleted (detectChanges simple_parse (Some file_ab) (Some gone))) /\
  (forall c cell,
     In c (detectChanges simple_parse (Some file_ab) (Some file_a_empty)) ->
     snapshot c = Some cell -> text cell <> ""%string).
Proof.
  refine (edit_to_empty_is_reported_as_deletion simple_parse file_ab file_a_empty 0 1 "b"
            [Some "a"; Some "b"]%string [Some "a"; Some ""]%string
            eq_refl eq_refl _ eq_refl eq_refl).
  discriminate.
Defined.

(** A database with one stored snapshot, the cell of row 1 and column 1,
    and a parent query that finds the change with that snapshot. *)
Definition file_abcd : LixFile :=
  {| file_id := "f"; path := "/t.csv"; data := String.concat (String "010" EmptyString) ["a,b"; "c,d"] |}.

Definition cell_d : Cell := {| rowIndex := 1; columnIndex := 1; text := "d" |}.

Definition stored_cell_d : SnapshotRow := {| id := "s1"; snapshot_value := Some cell_d |}.

Definition change_d : ChangeGraph.Change :=
  {| ChangeGraph.id := "0"; ChangeGraph.entity_id := "1-1"; ChangeGraph.file_id := "f";
     ChangeGraph.plugin_key := "csv"; ChangeGraph.type := "cell";
     ChangeGraph.snapshot_id := "s1"; ChangeGraph.created_at := "mock" |}.

Definition one_snapshot (_ : unit) : list SnapshotRow := [stored_cell_d].

Definition parent_d (_ : unit) (_ : ChangeWithSnapshot) : option ChangeGraph.Change :=
  Some change_d.

Example apply_deletion_blanks_cell :
  apply_deletion unit one_snapshot parent_d tt (simple_parse (data file_abcd)) deletion
  = inr [Some [Some "a"; Some "b"]; Some [Some "c"; Some ""]]%string.
Proof. reflexivity. Qed.

Lemma detectChanges_nothing_to_report_witness :
  simple_parse (data file_ab) = simple_parse (data file_ab) /\
  detectChanges simple_parse (Some file_a) None = [] /\
  detectChanges simple_parse (Some file_ab) (Some file_ab) = [].
Proof.
  split; [reflexivity |].
  exact (detectChanges_nothing_to_report simple_parse (Some file_a) file_ab file_ab eq_refl).
Defined.

Lemma applyChanges_of_detected_witness :
  map value [set_cell 0 1 "b"] =
    map snapshot (detectChanges simple_parse (Some file_a) (Some file_ab)) /\
  (forall d, In d (detectChanges simple_parse (Some file_a) (Some file_ab)) ->
             snapshot d <> None) /\
  exists parsed,
    apply_loop unit (fun _ => []) (fun _ _ => None) tt (simple_parse (data file_a))
               [set_cell 0 1 "b"] = inr parsed /\
    applyChanges unit simple_parse (fun _ => tt) simple_unparse unit (fun _ => [])
                 (fun _ _ => None) tt file_a [set_cell 0 1 "b"]
    = simple_unparse parsed tt /\
    (forall i j t, cell_at (simple_parse (data file_ab)) i j = Some t ->
                   cell_at parsed i j = Some t) /\
    (no_hole_row (simple_parse (data file_a)) ->
     (forall i, i < List.length (simple_parse (data file_ab)) ->
        exists row j t, js_get (simple_parse (data file_ab)) i = Some row /\
                        js_get row j = Some t) ->
     no_hole_row parsed).
Proof.
  assert (H : forall d, In d (detectChanges simple_parse (Some file_a) (Some file_ab)) ->
                        snapshot d <> None).
  { intros d [<-|[]]. discriminate. }
  refine (conj eq_refl (conj H _)).
  exact (applyChanges_of_detected unit simple_parse (fun _ => tt) simple_unparse unit
           (fun _ => []) (fun _ _ => None) tt file_a file_ab [set_cell 0 1 "b"] eq_refl H).
Defined.

Lemma apply_deletion_effect_witness :
  let parsed := simple_parse (data file_abcd) in
  js_get parsed (rowIndex cell_d) = Some [Some "c"; Some "d"]%string /\
  exists parsed',
    apply_deletion unit one_snapshot parent_d tt parsed deletion = inr parsed' /\
    ((exists j t, j <> columnIndex cell_d /\
                  js_get [Some "c"; Some "d"]%string j = Some t /\ t <> ""%string) ->
     List.length parsed' = List.length parsed /\
     forall i j,
       cell_at parsed' i j =
       if (i =? rowIndex cell_d) && (j =? columnIndex cell_d) then Some ""%string
       else cell_at parsed i j) /\
    ((forall j t, j <> columnIndex cell_d ->
                  js_get [Some "c"; Some "d"]%string j = Some t -> t = ""%string) ->
     List.length parsed' = List.length parsed - 1 /\
     forall i, js_get parsed' i = js_get parsed (if i <? rowIndex cell_d then i else S i)).
Proof.
  split; [reflexivity |].
  exact (apply_deletion_effect unit one_snapshot parent_d tt (simple_parse (data file_abcd))
           deletion change_d stored_cell_d cell_d [Some "c"; Some "d"]%string
           eq_refl eq_refl eq_refl eq_refl).
Defined.

Lemma write_new_row_then_delete_witness :
  rowIndex cell_d = List.length (simple_parse (data file_ab)) /\
  apply_deletion unit one_snapshot parent_d tt
    (apply_value (simple_parse (data file_ab)) cell_d) deletion
  = inr (simple_parse (data file_ab)).
Proof.
  split; [reflexivity |].
  exact (write_new_row_then_delete unit one_snapshot parent_d tt (simple_parse (data file_ab))
           cell_d deletion change_d stored_cell_d eq_refl eq_refl eq_refl eq_refl).
Defined.

Lemma applyChanges_throws_in_unparse_or_at_a_deletion_witness :
  applyChanges unit simple_parse (fun _ => tt) simple_unparse unit (fun _ => [])
               (fun _ _ => None) tt file_ab [set_cell 3 0 "q"]
  = inl TypeError /\
  ((exists parsed,
      apply_loop unit (fun _ => []) (fun _ _ => None) tt (simple_parse (data file_ab))
                 [set_cell 3 0 "q"] = inr parsed /\
      simple_unparse parsed tt = inl TypeError) \/
   (exists before c after parsed,
      [set_cell 3 0 "q"] = before ++ c :: after /\ value c = None /\
      apply_loop unit (fun _ => []) (fun _ _ => None) tt (simple_parse (data file_ab)) before
      = inr parsed /\
      apply_deletion unit (fun _ => []) (fun _ _ => None) tt parsed c = inl TypeError /\
      (TypeError = expected_previous_change \/ TypeError = NoResultError \/
       TypeError = TypeError))).
Proof.
  split; [reflexivity |].
  exact (applyChanges_throws_in_unparse_or_at_a_deletion unit simple_parse (fun _ => tt)
           simple_unparse unit (fun _ => []) (fun _ _ => None) tt file_ab
           [set_cell 3 0 "q"] TypeError eq_refl).
Defined.

End CsvPlugin.

(** ** UTF-8 as [TextDecoder] and [TextEncoder] read and write it

    Texts are kept as well-formed UTF-8.  The decoder is the one of the
    Encoding standard: a byte sequence that is not well formed becomes
    the replacement character U+FFFD, and a byte order mark at the start
    is dropped.  The encoder writes a text as it is, and U+FFFD for what
    is not a text, as it does for a lone surrogate. *)
Module Utf8.

(** U+FFFD: EF BF BD. *)
Definition replacement : string :=
  String "239" (String "191" (String "189" EmptyString)).

(** The decoder's state: the continuation bytes still to come, the range
    the next one has to lie in, and the bytes of the sequence so far. *)
Record State := { needed : nat; lower : nat; upper : nat; seen : string }.

Definition initial : State :=
  {| needed := 0; lower := 128; upper := 191; seen := EmptyString |}.

(** A byte read when no sequence is open. *)
Definition lead (b : ascii) : string * State :=
  let n := nat_of_ascii b in
  if n <=? 127 then (String b EmptyString, initial)
  else if (194 <=? n) && (n <=? 223) then
    (EmptyString,
     {| needed := 1; lower := 128; upper := 191; seen := String b EmptyString |})
  else if (224 <=? n) && (n <=? 239) then
    (EmptyString,
     {| needed := 2;
        lower := if n =? 224 then 160 else 128;
        upper := if n =? 237 then 159 else 191;
        seen := String b EmptyString |})
  else if (240 <=? n) && (n <=? 244) then
    (EmptyString,
     {| needed := 3;
        lower := if n =? 240 then 144 else 128;
        upper := if n =? 244 then 143 else 191;
        seen := String b EmptyString |})
  else (replacement, initial).

(** One byte: a continuation byte out of range ends the open sequence
    with U+FFFD and is read again as a first byte. *)
Definition step (st : State) (b : ascii) : string * State :=
  match needed st with
  | 0 => lead b
  | S k =>
      let n := nat_of_ascii b in
      if (lower st <=? n) && (n <=? upper st) then
        match k with
        | 0 => ((seen st ++ String b EmptyString)%string, initial)
        | S _ =>
            (EmptyString,
             {| needed := k; lower := 128; upper := 191;
                seen := (seen st ++ String b EmptyString)%string |})
        end
      else (let (out, st') := lead b in ((replacement ++ out)%string, st'))
  end.

Fixpoint decode_from (st : State) (bytes : string) : string :=
  match bytes with
  | EmptyString => if needed st =? 0 then EmptyString else replacement
  | String b rest =>
      let (out, st') := step st b in (out ++ decode_from st' rest)%string
  end.

(** EF BB BF at the start. *)
Definition strip_bom (bytes : string) : string :=
  match bytes with
  | String b1 (String b2 (String b3 rest)) =>
      if (nat_of_ascii b1 =? 239) && (nat_of_ascii b2 =? 187) && (nat_of_ascii b3 =? 191)
      then rest else bytes
  | _ => bytes
  end.

(** [new TextDecoder().decode(bytes)] *)
Definition decode (bytes : string) : string := decode_from initial (strip_bom bytes).

(** [new TextEncoder().encode(text)] *)
Definition encode (text : string) : string := decode_from initial text.

End Utf8.

(** ** Versions and the switch between them (spec 4.3 and 4.4,
       version/switch-version.test.ts) *)
Module Version.

Import SnapshotStore.

(** A row of [change] joined with the content of its snapshot; no content
    is a deletion.  Ids are the positions in the append-only table. *)
Record Change := {
  id : nat;
  entity_id : string;
  file_id : string;
  plugin_key : string;
  snapshot_content : option Json
}.

Record ChangeEdge := { parent_id : nat; child_id : nat }.

Record ChangeSetElement := { change_set_id : nat; change_id : nat }.

Record Version := { version_id : nat; version_change_set_id : nat }.

Record DetectedChange := { detected_entity_id : string; detected_snapshot : option Json }.

(** The two capabilities of a plugin; [applyChanges] may throw ([None]). *)
Record LixPlugin := {
  key : string;
  detectChanges : option string -> option string -> list DetectedChange;
  applyChanges : option string -> list Change -> option string
}.

(** The store.  [file] and [key_value] are the materialized state of the
    active version; [applyChanges_calls] counts the calls of the plugin's
    [applyChanges], as the mock of the test does. *)
Record Lix := {
  change : list Change;
  change_edge : list ChangeEdge;
  change_set_element : list ChangeSetElement;
  version : list Version;
  current_version : Version;
  file : list (string * string);
  key_value : list (string * string);
  applyChanges_calls : nat
}.

(** Tables keyed by a string. *)
Definition lookup (k : string) (t : list (string * string)) : option string :=
  option_map snd (find (fun r => fst r =? k)%string t).

Definition delete (k : string) (t : list (string * string)) : list (string * string) :=
  filter (fun r => negb (fst r =? k)%string) t.

Definition upsert (k v : string) (t : list (string * string)) : list (string * string) :=
  delete k t ++ [(k, v)].

(** The changes the engine tracks for its own tables carry this file id. *)
Definition own_change_control : string := "lix_own_change_control".

Definition is_own (f : string) : bool := (f =? own_change_control)%string.

Definition key_value_snapshot (k v : string) : Json :=
  JObject [("key", JString k); ("value", JString v)].

Definition snapshot_value (content : Json) : option string :=
  match content with
  | JObject members =>
      match find (fun m => fst m =? "value")%string members with
      | Some (_, JString v) => Some v
      | _ => None
      end
  | _ => None
  end.

Definition in_change_set (s : Lix) (cs c : nat) : bool :=
  existsb (fun el => (change_set_id el =? cs) && (change_id el =? c))
          (change_set_element s).

(** The leaf changes of a version: the changes its change set points at. *)
Definition leaf_changes (s : Lix) (cs : nat) : list Change :=
  filter (fun c => in_change_set s cs (id c)) (change s).

Definition is_entity (f e : string) (c : Change) : bool :=
  ((file_id c =? f) && (entity_id c =? e))%string.

Definition leaf_of_entity (s : Lix) (cs : nat) (f e : string) : option Change :=
  find (is_entity f e) (leaf_changes s cs).

Definition file_leaves (s : Lix) (cs : nat) (f : string) : list Change :=
  filter (fun c => file_id c =? f)%string (leaf_changes s cs).

Definition same_leaf (a b : option Change) : bool :=
  match a, b with
  | None, None => true
  | Some x, Some y => id x =? id y
  | _, _ => false
  end.

Definition change_by_id (s : Lix) (c : nat) : option Change :=
  find (fun x => id x =? c) (change s).

(** The change of that id is a change of the entity [e] of the file [f]. *)
Definition points_at (s : Lix) (f e : string) (c : nat) : bool :=
  match change_by_id s c with
  | Some x => is_entity f e x
  | None => false
  end.

(** Modelled from the spec: create-change.js, create-version.js,
    switch-version.js and the change queue are not among the sources; the
    test of switch-version is.  Section 4.3: for a detected record "create
    a new Change [...] and parent edges pointing at the entity's current
    leaf Change in the active branch (absent if the entity is new)"; the
    change becomes the entity's leaf in the change set of the active
    version, in place of the leaf the entity had there. *)
Definition createChange (s : Lix) (f e pk : string) (content : option Json) : Lix :=
  let cs := version_change_set_id (current_version s) in
  let n := List.length (change s) in
  let old := leaf_of_entity s cs f e in
  {| change := change s ++ [{| id := n; entity_id := e; file_id := f;
                               plugin_key := pk; snapshot_content := content |}];
     change_edge :=
       change_edge s ++
       match old with
       | Some p => [{| parent_id := id p; child_id := n |}]
       | None => []
       end;
     change_set_element :=
       filter (fun el => negb ((change_set_id el =? cs) && points_at s f e (change_id el)))
              (change_set_element s)
       ++ [{| change_set_id := cs; change_id := n |}];
     version := version s;
     current_version := current_version s;
     file := file s;
     key_value := key_value s;
     applyChanges_calls := applyChanges_calls s |}.

(** Modelled from the spec: section 4.4, createVersion "creates a new
    branch, optionally forking from a parent's current change set (sharing
    history up to the fork point; no Changes are copied)". *)
Definition createVersion (s : Lix) (parent : option Version) : Lix * Version :=
  let n := List.length (version s) in
  let v := {| version_id := n; version_change_set_id := n |} in
  let forked :=
    match parent with
    | Some p =>
        map (fun el => {| change_set_id := n; change_id := change_id el |})
            (filter (fun el => change_set_id el =? version_change_set_id p)
                    (change_set_element s))
    | None => []
    end in
  ({| change := change s;
      change_edge := change_edge s;
      change_set_element := change_set_element s ++ forked;
      version := version s ++ [v];
      current_version := current_version s;
      file := file s;
      key_value := key_value s;
      applyChanges_calls := applyChanges_calls s |}, v).

(** Modelled from the spec: the change control of the [key_value] table
    is not among the sources.  A write while a version is active ("writing
    key foo=bar in version A", section 8) is the row and the change the
    engine records for it in that version. *)
Definition insert_key_value (s : Lix) (k v : string) : Lix :=
  let s1 := createChange s own_change_control k own_change_control
                         (Some (key_value_snapshot k v)) in
  {| change := change s1;
     change_edge := change_edge s1;
     change_set_element := change_set_element s1;
     version := version s1;
     current_version := current_version s1;
     file := file s1;
     key_value := upsert k v (key_value s1);
     applyChanges_calls := applyChanges_calls s1 |}.

Definition select_key_value (s : Lix) (k : string) : option string :=
  lookup k (key_value s).

(** Modelled from the spec: the change queue is not among the sources.
    Section 4.3: processNext "loads the previous materialized version of
    that file [...] and invokes the plugin's detectChanges(before, after)",
    and creates a change for each detected record; here a write of a file
    ([after] absent: its deletion) with the queue settled. *)
Definition write_file (plugin : LixPlugin) (s : Lix) (f : string) (after : option string)
  : Lix :=
  let before := lookup f (file s) in
  let s1 :=
    fold_left
      (fun st d => createChange st f (detected_entity_id d) (key plugin) (detected_snapshot d))
      (detectChanges plugin before after) s in
  {| change := change s1;
     change_edge := change_edge s1;
     change_set_element := change_set_element s1;
     version := version s1;
     current_version := current_version s1;
     file := match after with
             | Some d => upsert f d (file s1)
             | None => delete f (file s1)
             end;
     key_value := key_value s1;
     applyChanges_calls := applyChanges_calls s1 |}.

(** Modelled from the spec: switch-version.js is missing.  Section 4.4,
    "state changes made while one version is active are invisible after
    switching away and become visible again after switching back": a key
    whose leaf change differs between the versions is set to what the
    target's leaf holds, and removed when the target has none. *)
Definition switch_key (s : Lix) (cur tgt : nat) (kv : list (string * string)) (k : string)
  : list (string * string) :=
  let target := leaf_of_entity s tgt own_change_control k in
  if same_leaf (leaf_of_entity s cur own_change_control k) target then kv
  else
    match target with
    | Some c =>
        match snapshot_content c with
        | Some content =>
            match snapshot_value content with
            | Some v => upsert k v kv
            | None => delete k kv
            end
        | None => delete k kv
        end
    | None => delete k kv
    end.

Definition own_keys (s : Lix) (cur tgt : nat) : list string :=
  map entity_id (filter (fun c => is_own (file_id c)) (leaf_changes s cur ++ leaf_changes s tgt)).

Definition plugin_files (s : Lix) (cur tgt : nat) : list string :=
  nodup string_dec
    (map file_id (filter (fun c => negb (is_own (file_id c)))
                         (leaf_changes s cur ++ leaf_changes s tgt))).

Fixpoint ids_eqb (a b : list nat) : bool :=
  match a, b with
  | [], [] => true
  | x :: a', y :: b' => (x =? y) && ids_eqb a' b'
  | _, _ => false
  end.

(** The leaf changes of a file differ between the two versions. *)
Definition diverges (s : Lix) (cur tgt : nat) (f : string) : bool :=
  negb (ids_eqb (map id (file_leaves s cur f)) (map id (file_leaves s tgt f))).

Definition has_content (changes : list Change) : bool :=
  existsb (fun c => match snapshot_content c with Some _ => true | None => false end) changes.

(** Modelled from the spec: switch-version.js is missing.  Steps 2 and 3
    of section 4.4 for one file: when its leaf changes differ, the plugin
    is called once with the target's leaf changes and the File row is
    updated, or removed when the target has no content for the file. *)
Definition switch_file (plugin : LixPlugin) (s : Lix) (cur tgt : nat)
  (st : option (list (string * string) * nat)) (f : string)
  : option (list (string * string) * nat) :=
  match st with
  | None => None
  | Some (files, calls) =>
      if diverges s cur tgt f then
        match applyChanges plugin (lookup f files) (file_leaves s tgt f) with
        | None => None
        | Some bytes =>
            Some (if has_content (file_leaves s tgt f)
                  then upsert f bytes files else delete f files,
                  S calls)
        end
      else Some (files, calls)
  end.

(** Modelled from the spec: section 4.4, switchVersion: "1. Determine, per
    file affected, the divergence point between the currently active
    version's leaf changes and the target version's leaf changes per
    entity.  2. For files where the leaf differs, invoke the plugin's
    applyChanges [...] to compute new file bytes; update the materialized
    File row [...].  3. For files present only because of changes not
    reachable from the target version, the plugin must reflect
    deletion/absence accordingly.  4. Reassign the current-version pointer
    to [to]."  A plugin failure leaves nothing written (section 7). *)
Definition switchVersion (plugin : LixPlugin) (s : Lix) (to : Version) : option Lix :=
  let cur := version_change_set_id (current_version s) in
  let tgt := version_change_set_id to in
  match fold_left (switch_file plugin s cur tgt) (plugin_files s cur tgt)
                  (Some (file s, applyChanges_calls s)) with
  | None => None
  | Some (files, calls) =>
      Some {| change := change s;
              change_edge := change_edge s;
              change_set_element := change_set_element s;
              version := version s;
              current_version := to;
              file := files;
              key_value := fold_left (switch_key s cur tgt) (own_keys s cur tgt) (key_value s);
              applyChanges_calls := calls |}
  end.

(** What the platform does for the plugins: [TextDecoder.decode],
    [TextEncoder.encode], and the conversion of a value to a text that
    [encode] applies to an argument that is not one. *)
Record Platform := {
  TextDecoder_decode : string -> string;
  TextEncoder_encode : string -> string;
  ToString : Json -> string
}.

(** The double nearest to a natural number, ties to the even mantissa. *)
Definition nearest_double (z : Z) : Z :=
  let b := (Z.log2 z + 1)%Z in
  if (b <=? 53)%Z then z
  else
    let sh := (b - 53)%Z in
    let q := Z.shiftr z sh in
    let r := (z - Z.shiftl q sh)%Z in
    let half := Z.shiftl 1 (sh - 1) in
    Z.shiftl (if (half <? r)%Z || ((r =? half)%Z && Z.odd q) then (q + 1)%Z else q) sh.

(** [c] is a real number that rounds to the double [v], for [v] from
    2^53 on. *)
Definition denotes (v c : Z) : bool :=
  let sh := (Z.log2 v + 1 - 53)%Z in
  let ulp := Z.shiftl 1 sh in
  let m := Z.shiftr v sh in
  let below := if (m =? 2 ^ 52)%Z then (ulp / 2)%Z else ulp in
  let lo2 := (2 * v - below)%Z in
  let hi2 := (2 * v + ulp)%Z in
  if Z.even m then (lo2 <=? 2 * c)%Z && (2 * c <=? hi2)%Z
  else (lo2 <? 2 * c)%Z && (2 * c <? hi2)%Z.

(** The number with the fewest digits that denotes [v]: [k] digits and
    [n - k] zeros, the nearest to [v] when two do. *)
Fixpoint shortest (v : Z) (n : nat) (ks : list nat) : Z :=
  match ks with
  | [] => v
  | k :: rest =>
      let p := (10 ^ Z.of_nat (n - k))%Z in
      let a := (v / p)%Z in
      let c1 := (a * p)%Z in
      let c2 := ((a + 1) * p)%Z in
      match denotes v c1, denotes v c2 with
      | true, true =>
          if (v - c1 <? c2 - v)%Z then c1
          else if (c2 - v <? v - c1)%Z then c2
          else if Z.even a then c1 else c2
      | true, false => c1
      | false, true => c2
      | false, false => shortest v n rest
      end
  end.

Definition strip_zeros (digits : string) : string :=
  let fix drop (l : list ascii) : list ascii :=
    match l with
    | c :: rest => if Ascii.eqb c "0" then drop rest else l
    | [] => []
    end in
  string_of_list_ascii (rev (drop (rev (list_ascii_of_string digits)))).

(** Digits as they are below 10^21, exponent form from there. *)
Definition format_digits (c : Z) : string :=
  let digits := number_to_string c in
  let n := String.length digits in
  if n <=? 21 then digits
  else
    match strip_zeros digits with
    | String d EmptyString => (String d EmptyString ++ "e+" ++ CsvPlugin.string_of_nat (n - 1))%string
    | String d rest => (String d EmptyString ++ "." ++ rest ++ "e+" ++ CsvPlugin.string_of_nat (n - 1))%string
    | EmptyString => digits
    end.

(** [Number::toString] on the integers. *)
Definition Number_toString (z : Z) : string :=
  let v := nearest_double (Z.abs z) in
  if (2 ^ 1024 <=? v)%Z then (if (z <? 0)%Z then "-Infinity" else "Infinity")%string
  else
    let c := if (v <? 2 ^ 53)%Z then v
             else shortest v (String.length (number_to_string v)) (seq 1 17) in
    ((if (z <? 0)%Z then "-" else "") ++ format_digits c)%string.

(** [String(value)] *)
Fixpoint js_to_string (v : Json) : string :=
  match v with
  | JNull => "null"
  | JBool true => "true"
  | JBool false => "false"
  | JNumber z => Number_toString z
  | JString t => t
  | JArray items =>
      String.concat ","
        (map (fun x => match x with JNull => ""%string | _ => js_to_string x end) items)
  | JObject _ => "[object Object]"
  end.

(** [openLixInMemory({})]: the version main, and nothing else. *)
Definition main : Version := {| version_id := 0; version_change_set_id := 0 |}.

Definition openLixInMemory : Lix :=
  {| change := []; change_edge := []; change_set_element := [];
     version := [main]; current_version := main;
     file := []; key_value := []; applyChanges_calls := 0 |}.

(** The plugin of the test "a deleted file in one version does not impact
    a version which did not delete the file".  [detectChanges] records
    the decoded text of the file after; [applyChanges] reads the snapshot
    of the last change, throws when there is no change or the snapshot
    has no content, and encodes its text; a text that is missing encodes
    as the empty text does. *)
Definition mockTxtPlugin (p : Platform) : LixPlugin :=
  {| key := "mock_txt_plugin";
     detectChanges := fun _ after =>
       [{| detected_entity_id := "txt_file";
           detected_snapshot :=
             match after with
             | Some data => Some (JObject [("text", JString (TextDecoder_decode p data))])
             | None => None
             end |}];
     applyChanges := fun _ changes =>
       match rev changes with
       | [] => None
       | last :: _ =>
           match snapshot_content last with
           | None => None
           | Some JNull => None
           | Some (JObject members) =>
               match find (fun m => fst m =? "text")%string members with
               | Some (_, JString text) => Some (TextEncoder_encode p text)
               | Some (_, text) => Some (TextEncoder_encode p (ToString p text))
               | None => Some (TextEncoder_encode p ""%string)
               end
           | Some _ => Some (TextEncoder_encode p ""%string)
           end
       end |}.

(** The platform with UTF-8 as above. *)
Definition utf8_platform : Platform :=
  {| TextDecoder_decode := Utf8.decode;
     TextEncoder_encode := Utf8.encode;
     ToString := js_to_string |}.




(** The store of the test "switch version applies the changes of the
    switched to version": two versions created side by side, the first
    one active. *)
Definition versionA : Version := snd (createVersion openLixInMemory None).

Definition versionB : Version :=
  snd (createVersion (fst (createVersion openLixInMemory None)) None).

Definition two_versions : Lix :=
  let s := fst (createVersion (fst (createVersion openLixInMemory None)) None) in
  match switchVersion (mockTxtPlugin utf8_platform) s versionA with
  | Some s' => s'
  | None => s
  end.

(** The store of the test "switching a version does not lead to duplicate
    changes": one change made in the version main. *)
Definition one_change : Lix :=
  createChange openLixInMemory "file0" "entity0" "plugin0" None.

(** Well-formed stores: a change's id is its position, the elements of the
    change sets point at changes and change sets that exist, and so does
    the current version. *)
Record wf (s : Lix) : Prop := {
  wf_ids : forall i c, nth_error (change s) i = Some c -> id c = i;
  wf_elements : forall el, In el (change_set_element s) ->
    change_id el < List.length (change s) /\ change_set_id el < List.length (version s);
  wf_current : version_change_set_id (current_version s) < List.length (version s)
}.






Lemma change_id_lt s c : wf s -> In c (change s) -> id c < List.length (change s).
Proof.
  intros Hwf Hin. apply In_nth_error in Hin. destruct Hin as [i Hi].
  rewrite (wf_ids s Hwf i c Hi). apply nth_error_Some. congruence.
Qed.


Lemma find_by_position (l : list Change) : forall k,
  (forall j c, nth_error l j = Some c -> id c = k + j) ->
  forall i x, nth_error l i = Some x -> find (fun c => id c =? k + i) l = Some x.
Proof.
  induction l as [|a l IH]; intros k Hpos i x Hi; [destruct i; discriminate |].
  destruct i as [|i]; simpl in *.
  - injection Hi as ->. rewrite (Hpos 0 x eq_refl). now rewrite Nat.eqb_refl.
  - rewrite (Hpos 0 a eq_refl).
    destruct (Nat.eqb_spec (k + 0) (k + S i)); [lia |].
    replace (k + S i) with (S k + i) by lia. apply IH; [| exact Hi].
    intros j c Hj. rewrite (Hpos (S j) c Hj). lia.
Qed.

Lemma change_by_id_change s x :
  wf s -> In x (change s) -> change_by_id s (id x) = Some x.
Proof.
  intros Hwf Hin. apply In_nth_error in Hin. destruct Hin as [i Hi].
  unfold change_by_id. rewrite (wf_ids s Hwf i x Hi).
  apply (find_by_position (change s) 0); [| exact Hi].
  intros j c Hj. now apply (wf_ids s Hwf).
Qed.

Lemma points_at_change s f e x :
  wf s -> In x (change s) -> points_at s f e (id x) = is_entity f e x.
Proof.
  intros Hwf Hin. unfold points_at. now rewrite change_by_id_change.
Qed.

Section CreateChange.

Variables (s : Lix) (f e pk : string) (content : option Json).

Let cur := version_change_set_id (current_version s).
Let n := List.length (change s).
Let created := {| id := n; entity_id := e; file_id := f;
                  plugin_key := pk; snapshot_content := content |}.
Let s' := createChange s f e pk content.

Lemma in_change_set_createChange cs c :
  in_change_set s' cs c =
  if cs =? cur
  then (in_change_set s cur c && negb (points_at s f e c)) || (c =? n)
  else in_change_set s cs c.
Proof.
  unfold in_change_set, s', createChange. cbn [change_set_element].
  fold cur n. rewrite existsb_app, existsb_filter. cbn [existsb change_set_id change_id].
  rewrite orb_false_r.
  destruct (Nat.eqb_spec cs cur) as [->|Hne].
  - rewrite Nat.eqb_refl. cbn [andb]. rewrite (Nat.eqb_sym n c). f_equal.
    rewrite <- existsb_and_const. apply existsb_ext_in. intros el _.
    destruct (Nat.eqb_spec (change_set_id el) cur) as [Hcs|Hcs]; simpl.
    + destruct (Nat.eqb_spec (change_id el) c) as [->|Hc]; simpl.
      * now rewrite andb_true_r.
      * now rewrite andb_false_r.
    + reflexivity.
  - destruct (Nat.eqb_spec cur cs) as [Heq|_]; [now elim Hne |]. cbn [andb].
    rewrite orb_false_r. apply existsb_ext_in. intros el _.
    destruct (Nat.eqb_spec (change_set_id el) cs) as [Hcs|Hcs]; simpl.
    + destruct (Nat.eqb_spec (change_set_id el) cur); [congruence | reflexivity].
    + now rewrite andb_false_r.
Qed.

Hypothesis Hwf : wf s.


Lemma leaf_changes_createChange_current :
  leaf_changes s' cur =
  filter (fun c => negb (is_entity f e c)) (leaf_changes s cur) ++ [created].
Proof.
  unfold leaf_changes. unfold s' at 2. unfold createChange.
  cbn [change]. fold n. rewrite filter_app. cbn [filter id].
  rewrite in_change_set_createChange, Nat.eqb_refl, Nat.eqb_refl, orb_true_r.
  f_equal. rewrite <- filter_andb. apply filter_ext_in'. intros x Hx.
  rewrite in_change_set_createChange, Nat.eqb_refl.
  rewrite (points_at_change s f e x Hwf Hx).
  apply (change_id_lt s x Hwf) in Hx. fold n in Hx.
  destruct (Nat.eqb_spec (id x) n); [lia |]. now rewrite orb_false_r.
Qed.

Lemma leaf_of_entity_createChange : leaf_of_entity s' cur f e = Some created.
Proof.
  unfold leaf_of_entity. rewrite leaf_changes_createChange_current.
  apply find_app_last.
  - apply find_filter_negb.
  - unfold is_entity, created. cbn. now rewrite !String.eqb_refl.
Qed.

Lemma wf_createChange : wf s'.
Proof.
  constructor; unfold s', createChange; cbn [change change_set_element version current_version].
  - intros i c Hi. destruct (Nat.lt_ge_cases i (List.length (change s))) as [Hlt|Hge].
    + rewrite nth_error_app1 in Hi by assumption. now apply (wf_ids s Hwf).
    + rewrite nth_error_app2 in Hi by assumption.
      destruct (i - List.length (change s)) as [|j] eqn:E; simpl in Hi.
      * injection Hi as <-. simpl. lia.
      * destruct j; discriminate.
  - intros el Hel. rewrite length_app. simpl. apply in_app_or in Hel.
    destruct Hel as [Hel|[<-|[]]].
    + apply filter_In in Hel. destruct Hel as [Hel _].
      destruct (wf_elements s Hwf el Hel). lia.
    + simpl. split; [lia | apply (wf_current s Hwf)].
  - apply (wf_current s Hwf).
Qed.

End CreateChange.

Lemma leaf_changes_ext s1 s2 cs :
  change s1 = change s2 -> change_set_element s1 = change_set_element s2 ->
  leaf_changes s1 cs = leaf_changes s2 cs.
Proof. intros H1 H2. unfold leaf_changes, in_change_set. now rewrite H1, H2. Qed.



Section CreateVersion.

Variables (s : Lix) (parent : option Version).
Hypothesis Hwf : wf s.

Let n := List.length (version s).
Let s1 := fst (createVersion s parent).

Lemma in_change_set_createVersion cs c :
  in_change_set s1 cs c =
  if cs =? n
  then match parent with
       | Some p => in_change_set s (version_change_set_id p) c
       | None => false
       end
  else in_change_set s cs c.
Proof.
  unfold in_change_set, s1, createVersion. cbn [fst change_set_element]. fold n.
  rewrite existsb_app.
  destruct (Nat.eqb_spec cs n) as [->|Hne].
  - rewrite (existsb_none _ (change_set_element s)).
    + cbn [orb]. destruct parent as [p|]; [| reflexivity].
      rewrite existsb_map', existsb_filter. apply existsb_ext_in. intros el _.
      cbn [change_set_id change_id]. now rewrite Nat.eqb_refl.
    + intros el Hel. destruct (wf_elements s Hwf el Hel) as [_ Hlt]. fold n in Hlt.
      destruct (Nat.eqb_spec (change_set_id el) n); [lia | reflexivity].
  - rewrite (existsb_none _ (match parent with Some _ => _ | None => _ end)).
    + apply orb_false_r.
    + intros el Hel. destruct parent as [p|]; [| destruct Hel].
      apply in_map_iff in Hel. destruct Hel as (x & <- & _). cbn [change_set_id].
      destruct (Nat.eqb_spec n cs); [congruence | reflexivity].
Qed.

Lemma wf_createVersion : wf s1.
Proof.
  constructor; unfold s1, createVersion;
    cbn [fst change change_set_element version current_version].
  - apply (wf_ids s Hwf).
  - intros el Hel. rewrite length_app. simpl. apply in_app_or in Hel.
    destruct Hel as [Hel|Hel].
    + destruct (wf_elements s Hwf el Hel). lia.
    + destruct parent as [p|]; [| destruct Hel].
      apply in_map_iff in Hel. destruct Hel as (x & <- & Hx).
      apply filter_In in Hx. destruct Hx as [Hx _].
      destruct (wf_elements s Hwf x Hx). cbn [change_id change_set_id]. lia.
  - rewrite length_app. simpl. assert (H := wf_current s Hwf). lia.
Qed.

End CreateVersion.

Lemma ids_eqb_refl l : ids_eqb l l = true.
Proof. induction l as [|x l IH]; simpl; [reflexivity | now rewrite Nat.eqb_refl]. Qed.

(** Files whose leaf changes are the same in both versions are left alone. *)
Lemma switch_files_same plugin s cur tgt files : forall st,
  (forall f, In f files -> diverges s cur tgt f = false) ->
  fold_left (switch_file plugin s cur tgt) files (Some st) = Some st.
Proof.
  induction files as [|f files IH]; intros [fl calls] H; simpl; [reflexivity |].
  rewrite (H f) by now left. apply IH. intros g Hg. apply H. now right.
Qed.

Lemma switch_files_none plugin s cur tgt files :
  fold_left (switch_file plugin s cur tgt) files None = None.
Proof. induction files as [|f files IH]; simpl; [reflexivity | exact IH]. Qed.

(** The plugin is called once for each file whose leaf changes differ. *)
Lemma switch_files_calls plugin s cur tgt files : forall fl calls fl' calls',
  fold_left (switch_file plugin s cur tgt) files (Some (fl, calls)) = Some (fl', calls') ->
  calls' = calls + List.length (filter (diverges s cur tgt) files).
Proof.
  induction files as [|f files IH]; intros fl calls fl' calls' H; simpl in *.
  - injection H as _ <-. lia.
  - destruct (diverges s cur tgt f).
    + destruct (applyChanges plugin (lookup f fl) (file_leaves s tgt f)) as [bytes|].
      * apply IH in H. simpl. lia.
      * now rewrite switch_files_none in H.
    + now apply IH in H.
Qed.




Lemma in_plugin_files_not_own s cur tgt f :
  In f (plugin_files s cur tgt) -> is_own f = false.
Proof.
  unfold plugin_files. intros H. apply nodup_In, in_map_iff in H.
  destruct H as (c & <- & Hc). apply filter_In in Hc. destruct Hc as [_ Hc].
  now apply negb_true_iff in Hc.
Qed.

(** A switch between versions whose leaf changes agree on every file of a
    plugin calls no plugin and rewrites no file. *)
Lemma switchVersion_own_only plugin s to :
  (forall f, is_own f = false ->
     file_leaves s (version_change_set_id (current_version s)) f =
     file_leaves s (version_change_set_id to) f) ->
  switchVersion plugin s to =
  Some {| change := change s;
          change_edge := change_edge s;
          change_set_element := change_set_element s;
          version := version s;
          current_version := to;
          file := file s;
          key_value :=
            fold_left (switch_key s (version_change_set_id (current_version s))
                                  (version_change_set_id to))
                      (own_keys s (version_change_set_id (current_version s))
                                (version_change_set_id to))
                      (key_value s);
          applyChanges_calls := applyChanges_calls s |}.
Proof.
  intros H. unfold switchVersion. rewrite switch_files_same; [reflexivity |].
  intros f Hf. unfold diverges. rewrite (H f (in_plugin_files_not_own _ _ _ _ Hf)).
  now rewrite ids_eqb_refl.
Qed.








Lemma switchVersion_frame plugin s to s' :
  switchVersion plugin s to = Some s' ->
  change s' = change s /\ change_edge s' = change_edge s /\
  change_set_element s' = change_set_element s /\ current_version s' = to /\
  applyChanges_calls s' =
    applyChanges_calls s +
    List.length (filter (diverges s (version_change_set_id (current_version s))
                                  (version_change_set_id to))
                        (plugin_files s (version_change_set_id (current_version s))
                                      (version_change_set_id to))).
Proof.
  unfold switchVersion.
  destruct (fold_left _ _ _) as [[files calls]|] eqn:E; [| discriminate].
  intros H. injection H as <-. cbn. repeat split.
  now apply switch_files_calls in E.
Qed.

(** A version created from the active one has the leaf changes of the
    active one. *)
Lemma createVersion_fork s :
  wf s ->
  let A := current_version s in
  let s1 := fst (createVersion s (Some A)) in
  let B := snd (createVersion s (Some A)) in
  version_change_set_id B = List.length (version s) /\
  version_change_set_id A <> version_change_set_id B /\
  wf s1 /\ current_version s1 = A /\
  leaf_changes s1 (version_change_set_id B) = leaf_changes s (version_change_set_id A) /\
  leaf_changes s1 (version_change_set_id A) = leaf_changes s (version_change_set_id A).
Proof.
  intros Hwf A s1 B.
  assert (HA := wf_current s Hwf). fold A in HA.
  assert (Hin : forall cs c,
             in_change_set s1 cs c =
             if cs =? List.length (version s)
             then in_change_set s (version_change_set_id A) c
             else in_change_set s cs c)
    by (intros cs c; apply (in_change_set_createVersion s (Some A) Hwf)).
  refine (conj eq_refl (conj _ (conj _ (conj eq_refl (conj _ _))))).
  - cbn. lia.
  - now apply wf_createVersion.
  - unfold leaf_changes. apply filter_ext. intros c. rewrite Hin. cbn.
    now rewrite Nat.eqb_refl.
  - unfold leaf_changes. apply filter_ext. intros c. rewrite Hin.
    destruct (Nat.eqb_spec (version_change_set_id A) (List.length (version s))); [lia |].
    reflexivity.
Qed.

(** C2: after a version B is created from the active version A, the
    switch from A to B and the switch back both succeed and leave the
    change table as it was, without a call of the plugin; and no switch
    ever changes the change table, the edges or the change sets. *)
Theorem switchVersion_creates_no_changes (plugin : LixPlugin) (s : Lix) :
  wf s ->
  let A := current_version s in
  let s1 := fst (createVersion s (Some A)) in
  let B := snd (createVersion s (Some A)) in
  (exists s2 s3,
     switchVersion plugin s1 B = Some s2 /\
     switchVersion plugin s2 A = Some s3 /\
     change s2 = change s /\ change s3 = change s /\
     applyChanges_calls s3 = applyChanges_calls s) /\
  (forall s0 to s',
     switchVersion plugin s0 to = Some s' ->
     change s' = change s0 /\ change_edge s' = change_edge s0 /\
     change_set_element s' = change_set_element s0).
Proof.
  intros Hwf A s1 B.
  destruct (createVersion_fork s Hwf) as (HB & Hne & Hwf1 & Hcur1 & HLB & HLA).
  fold A s1 B in HB, Hne, Hwf1, Hcur1, HLB, HLA.
  split.
  - assert (Hsw1 := switchVersion_own_only plugin s1 B).
    match type of Hsw1 with _ -> _ = Some ?x => set (s2 := x) in * end.
    assert (Hs2 : switchVersion plugin s1 B = Some s2).
    { apply Hsw1. intros f _. unfold file_leaves. now rewrite Hcur1, HLA, HLB. }
    assert (Hsw2 := switchVersion_own_only plugin s2 A).
    match type of Hsw2 with _ -> _ = Some ?x => set (s3 := x) in * end.
    assert (Hs3 : switchVersion plugin s2 A = Some s3).
    { apply Hsw2. intros f _. unfold file_leaves. cbn [s2 current_version].
      rewrite (leaf_changes_ext s2 s1), (leaf_changes_ext s2 s1) by reflexivity.
      now rewrite HLA, HLB. }
    exists s2, s3. repeat split; assumption.
  - intros s0 to s' H. apply switchVersion_frame in H. tauto.
Qed.








Lemma wf_openLixInMemory : wf openLixInMemory.
Proof.
  constructor; simpl.
  - intros [|i] c H; discriminate.
  - intros el [].
  - lia.
Qed.


Example switch_version_test :
  let s1 := insert_key_value two_versions "foo" "bar" in
  select_key_value s1 "foo" = Some "bar"%string /\
  match switchVersion (mockTxtPlugin utf8_platform) s1 versionB with
  | Some s2 =>
      select_key_value s2 "foo" = None /\
      match switchVersion (mockTxtPlugin utf8_platform) (insert_key_value s2 "foo" "baz") versionA with
      | Some s4 => select_key_value s4 "foo" = Some "bar"%string
      | None => False
      end
  | None => False
  end.
Proof. vm_compute. repeat split. Qed.

(** The same with a key that both versions inherit from the version they
    were created from. *)
Example switch_version_inherited_key :
  let s0 := insert_key_value openLixInMemory "foo" "old" in
  let sA := createVersion s0 (Some main) in
  let sB := createVersion (fst sA) (Some main) in
  match switchVersion (mockTxtPlugin utf8_platform) (fst sB) (snd sA) with
  | Some s =>
      match switchVersion (mockTxtPlugin utf8_platform) (insert_key_value s "foo" "bar") (snd sB) with
      | Some s2 =>
          select_key_value s2 "foo" = Some "old"%string /\
          match switchVersion (mockTxtPlugin utf8_platform) (insert_key_value s2 "foo" "baz") (snd sA) with
          | Some s4 => select_key_value s4 "foo" = Some "bar"%string
          | None => False
          end
      | None => False
      end
  | None => False
  end.
Proof. vm_compute. repeat split. Qed.




Lemma wf_one_change : wf one_change.
Proof. apply wf_createChange, wf_openLixInMemory. Qed.

Lemma switchVersion_creates_no_changes_witness :
  wf one_change /\
  let A := current_version one_change in
  let s1 := fst (createVersion one_change (Some A)) in
  let B := snd (createVersion one_change (Some A)) in
  (exists s2 s3,
     switchVersion (mockTxtPlugin utf8_platform) s1 B = Some s2 /\
     switchVersion (mockTxtPlugin utf8_platform) s2 A = Some s3 /\
     change s2 = change one_change /\ change s3 = change one_change /\
     applyChanges_calls s3 = applyChanges_calls one_change) /\
  (forall s0 to s',
     switchVersion (mockTxtPlugin utf8_platform) s0 to = Some s' ->
     change s' = change s0 /\ change_edge s' = change_edge s0 /\
     change_set_element s' = change_set_element s0).
Proof.
  split; [exact wf_one_change |].
  exact (switchVersion_creates_no_changes (mockTxtPlugin utf8_platform) one_change wf_one_change).
Defined.

(** Bytes that are not a text: FF is no UTF-8, the decoder reads U+FFFD
    for it; and a byte order mark is dropped. *)
Example decode_not_utf8 :
  Utf8.encode (Utf8.decode (String "255" (String "065" EmptyString)))
  = String "239" (String "191" (String "189" (String "065" EmptyString))) /\
  Utf8.decode (String "239" (String "187" (String "191" "hello")))
  = "hello"%string.
Proof. split; reflexivity. Qed.

Example js_to_string_numbers :
  js_to_string (JNumber (2 ^ 53 + 1)) = "9007199254740992"%string /\
  js_to_string (JNumber (10 ^ 21)) = "1e+21"%string /\
  js_to_string (JNumber 123456789012345680000) = "123456789012345680000"%string /\
  js_to_string (JNumber (- 123456789012345678901234567890))
  = "-1.2345678901234568e+29"%string /\
  js_to_string (JArray [JNumber 1; JNull; JArray [JString "a"; JBool true]])
  = "1,,a,true"%string.
Proof. repeat split; vm_compute; reflexivity. Qed.

Example deleted_file_test :
  let s1 := write_file (mockTxtPlugin utf8_platform) two_versions "file0" (Some "hello world"%string) in
  let s2 := fst (createVersion s1 (Some versionA)) in
  let target := snd (createVersion s1 (Some versionA)) in
  match switchVersion (mockTxtPlugin utf8_platform) s2 target with
  | Some s3 =>
      applyChanges_calls s3 = 0 /\
      match switchVersion (mockTxtPlugin utf8_platform) (write_file (mockTxtPlugin utf8_platform) s3 "file0" None) versionA with
      | Some s5 =>
          applyChanges_calls s5 = 1 /\ lookup "file0" (file s5) = Some "hello world"%string
      | None => False
      end
  | None => False
  end.
Proof. vm_compute. repeat split. Qed.

(** The same steps with the bytes FF 41, which are not a text: the switch
    back writes EF BF BD 41. *)
Example deleted_file_not_text :
  let bytes := String "255" (String "065" EmptyString) in
  let s1 := write_file (mockTxtPlugin utf8_platform) two_versions "file0" (Some bytes) in
  let s2 := fst (createVersion s1 (Some versionA)) in
  let target := snd (createVersion s1 (Some versionA)) in
  match switchVersion (mockTxtPlugin utf8_platform) s2 target with
  | Some s3 =>
      lookup "file0" (file s3) = Some bytes /\
      match switchVersion (mockTxtPlugin utf8_platform)
                          (write_file (mockTxtPlugin utf8_platform) s3 "file0" None)
                          versionA with
      | Some s5 =>
          lookup "file0" (file s5)
          = Some (String "239" (String "191" (String "189" (String "065" EmptyString))))
      | None => False
      end
  | None => False
  end.
Proof. vm_compute. repeat split. Qed.


End Version.
